(** * loongarch-opcodes: the Go code generators, embedded and verified

    The repository turns LoongArch instruction descriptions into source
    text for two consumers: the Go assembler ([geninsndata], and the older
    [geninstformats]) and QEMU's TCG backend ([genqemutcgdefs]).

    The generators are embedded function by function, one module per
    program.  A buffer is threaded through the functions that write, and a
    panic is a result of its own.  The emitted text is kept as text.
    Where a Go function works out what to write while writing it, the
    embedding first works out the parts of the generated function (every
    piece of text built from the model, and next to it the expression or
    check that the text denotes in Go or C) and then writes them in the
    order of the source; nothing reaches standard output before the end of
    a run, so a panic between two writes cannot be told from one before
    them.  The statements about what generated validators and encoders
    compute are made on those parts.

    Package [common] (the data model, the canonical names, the reader of
    the description files) is not among the sources: the data model is
    taken from its use, and what else is needed is a parameter. *)

From Stdlib Require Import ZArith Lia Ascii String HexString.
From stdpp Require Import base numbers option list sorting strings pretty
  functions gmap.

Local Open Scope Z_scope.

(** ** Go run-time values *)

(** Go's [int] and [uint] are 64 bits wide on every platform the
    generators are run on; [uint32] is what the generated code packs. *)
Definition wrap_int (z : Z) : Z := (z + 2 ^ 63) `mod` 2 ^ 64 - 2 ^ 63.
Definition wrap_uint (z : Z) : Z := z `mod` 2 ^ 64.
Definition wrap_uint32 (z : Z) : Z := z `mod` 2 ^ 32.
Definition wrap_int32 (z : Z) : Z := (z + 2 ^ 31) `mod` 2 ^ 32 - 2 ^ 31.

(** [int(u)] for [u : uint]. *)
Definition int_of_uint (u : N) : Z := wrap_int (Z.of_N u).

(** [1 << w] where the untyped constant takes type [int] and [w : uint]:
    bits shifted past the top are lost. *)
Definition int_shl1 (w : Z) : Z :=
  if decide (w < 64) then wrap_int (Z.shiftl 1 w) else 0.

(** A panic aborts the run; nothing has been written to standard output
    at that point, since the buffer is only written at the very end. *)
Inductive Res (A : Type) : Type :=
  | Ok (a : A)
  | Panic (msg : string).
Arguments Ok {A} a.
Arguments Panic {A} msg.

Global Instance Res_ret : MRet Res := λ A a, Ok a.
Global Instance Res_bind : MBind Res := λ A B f m,
  match m with
  | Ok a => f a
  | Panic msg => Panic msg
  end.
Global Instance Res_fmap : FMap Res := λ A B f m,
  match m with
  | Ok a => Ok (f a)
  | Panic msg => Panic msg
  end.

Definition is_Ok {A} (r : Res A) : Prop := ∃ a, r = Ok a.
Definition is_Panic {A} (r : Res A) : Prop := ∃ msg, r = Panic msg.

(** ** Text helpers ([fmt], [strconv], [strings]) *)

(** [%x] / [strconv.FormatUint(u, 16)]: lower-case hexadecimal, no prefix. *)
Definition fmt_x_N (n : N) : string :=
  match n with
  | N0 => "0"
  | Npos p => HexString.Raw.of_pos p EmptyString
  end.

(** [%x] on a signed integer: a sign, then the magnitude. *)
Definition fmt_x (z : Z) : string :=
  match z with
  | Zneg p => "-" +:+ HexString.Raw.of_pos p EmptyString
  | _ => fmt_x_N (Z.to_N z)
  end.

(** [%#x] on a signed integer. *)
Definition fmt_sharp_x (z : Z) : string := HexString.of_Z z.

(** [%d], [strconv.Itoa]. *)
Definition fmt_d (z : Z) : string := pretty z.

(** [strconv.FormatUint(uint64(mask), 16)] for [mask : int]. *)
Definition FormatUint16_of_int (mask : Z) : string :=
  fmt_x_N (Z.to_N (wrap_uint mask)).

(** [%08x] on a [uint32]: zero-padded to eight digits. *)
Fixpoint zeros (n : nat) : string :=
  match n with
  | O => EmptyString
  | S n => String "0"%char (zeros n)
  end.
Definition fmt_08x (n : N) : string :=
  let s := fmt_x_N n in zeros (8 - String.length s) +:+ s.

Definition ascii_is_upper (c : ascii) : bool :=
  let n := N_of_ascii c in ((65 <=? n) && (n <=? 90))%N.
Definition ascii_is_lower (c : ascii) : bool :=
  let n := N_of_ascii c in ((97 <=? n) && (n <=? 122))%N.
Definition ascii_ToLower (c : ascii) : ascii :=
  if ascii_is_upper c then ascii_of_N (N_of_ascii c + 32) else c.
Definition ascii_ToUpper (c : ascii) : ascii :=
  if ascii_is_lower c then ascii_of_N (N_of_ascii c - 32) else c.

Fixpoint string_map (f : ascii → ascii) (s : string) : string :=
  match s with
  | EmptyString => EmptyString
  | String c s => String (f c) (string_map f s)
  end.

(** [strings.ToLower], [strings.ToUpper], on the ASCII text the
    generators handle. *)
Definition ToLower : string → string := string_map ascii_ToLower.
Definition ToUpper : string → string := string_map ascii_ToUpper.

(** [strings.ReplaceAll(s, old, new)] for a one-byte [old]. *)
Fixpoint ReplaceAll1 (s : string) (old : ascii) (new : string) : string :=
  match s with
  | EmptyString => EmptyString
  | String c s =>
      (if Ascii.eqb c old then new else String c EmptyString)
        +:+ ReplaceAll1 s old new
  end.

Definition string_of_rune (c : ascii) : string := String c EmptyString.

(** ** The data model (package [common]) *)

Inductive ArgKind : Type :=
  | ArgKindIntReg
  | ArgKindFPReg
  | ArgKindFCCReg
  | ArgKindSignedImm
  | ArgKindUnsignedImm.

Global Instance ArgKind_eq_dec : EqDecision ArgKind.
Proof. solve_decision. Defined.

(** [Offset] and [Width] are Go [uint]s. *)
Record Slot : Type := mkSlot { Offset : N; Width : N }.

Record Arg : Type := mkArg { Kind : ArgKind; Slots : list Slot }.

Record InsnFormat : Type := mkFormat { Args : list Arg }.

Record InsnDescription : Type := mkInsn {
  Word : N;
  Mnemonic : string;
  Format : InsnFormat;
  Attribs : gset string
}.

Global Instance Slot_eq_dec : EqDecision Slot.
Proof. solve_decision. Defined.
Global Instance Arg_eq_dec : EqDecision Arg.
Proof. solve_decision. Defined.
Global Instance InsnFormat_eq_dec : EqDecision InsnFormat.
Proof. solve_decision. Defined.

(** Modelled from the spec: [Arg.TotalWidth] of package [common], which is
    not among the sources.  "Total logical width = sum of slot widths." *)
Definition TotalWidth (a : Arg) : N :=
  foldr (λ s acc, Width s + acc)%N 0%N (Slots a).

(** Modelled from the spec: [ArgKind.IsImm] of package [common]; the
    immediates are the signed and the unsigned kind, every other kind is a
    register class. *)
Definition IsImm (k : ArgKind) : bool :=
  match k with
  | ArgKindSignedImm | ArgKindUnsignedImm => true
  | _ => false
  end.

(** What the generators use from package [common] and from their
    environment without the sources defining it: the canonical names of
    arguments and formats, the revision embedded in the QEMU header, and
    the formatters run over the finished buffer. *)
Class Common : Type := {
  Arg_CanonicalRepr : Arg → string;
  Fmt_CanonicalRepr : InsnFormat → string;
  MustGetGitCommitHash : string;
  format_Source : string → Res string;
  clang_format : string → Res string
}.

(** Go randomises the order in which [range] visits a map.  One run is
    one such order: some permutation of the map's content. *)
Class MapOrder : Type := {
  rangeMap : ∀ {V}, gmap string V → list (string * V);
  rangeMap_perm : ∀ V (m : gmap string V), rangeMap m ≡ₚ map_to_list m
}.

(** [sort.Slice] is a fixed algorithm that is not stable: its result is
    a permutation of the input in which no element is followed by a
    smaller one. *)
Class SortAlg : Type := {
  sort_Slice : ∀ {A}, (A → A → bool) → list A → list A;
  sort_Slice_perm : ∀ A (less : A → A → bool) l, sort_Slice less l ≡ₚ l;
  sort_Slice_sorted : ∀ A (less : A → A → bool) l,
    (∀ x y z, less x y = false → less y z = false → less x z = false) →
    (∀ x y, less x y = true → less y x = false) →
    Sorted (λ x y, less y x = false) (sort_Slice less l)
}.

(** [sort.Ints] and [sort.Strings]: equal elements cannot be told apart,
    so the result is the one ascending arrangement. *)
Definition sort_Ints (l : list Z) : list Z := merge_sort Z.le l.
Definition sort_Strings (l : list string) : list string :=
  merge_sort String.le l.

(** ** Slot combinations (identical in [geninsndata] and the QEMU
    generator) *)

Definition slotD : Z := 0.
Definition slotJ : Z := 5.
Definition slotK : Z := 10.
Definition slotA : Z := 15.
Definition slotM : Z := 16.

(** The [switch] inside the loop of [slotCombinationForFmt]. *)
Definition slotRune (s : Z) : Res ascii :=
  if decide (s = slotD) then Ok "D"%char
  else if decide (s = slotJ) then Ok "J"%char
  else if decide (s = slotK) then Ok "K"%char
  else if decide (s = slotA) then Ok "A"%char
  else if decide (s = slotM) then Ok "M"%char
  else Panic "should never happen".

Fixpoint writeSlotRunes (sb : string) (slots : list Z) : Res string :=
  match slots with
  | [] => Ok sb
  | s :: slots =>
      c ← slotRune s;
      writeSlotRunes (sb +:+ string_of_rune c) slots
  end.

Definition fmtSlotOffsets (f : InsnFormat) : list Z :=
  a ← Args f; s ← Slots a; [int_of_uint (Offset s)].

(** slot combination looks like "DJKM" *)
Definition slotCombinationForFmt (f : InsnFormat) : Res string :=
  let slots := sort_Ints (fmtSlotOffsets f) in
  writeSlotRunes EmptyString slots.

Definition slotOffsetFromRune (s : ascii) : Res Z :=
  if decide (s = "D"%char ∨ s = "d"%char) then Ok slotD
  else if decide (s = "J"%char ∨ s = "j"%char) then Ok slotJ
  else if decide (s = "K"%char ∨ s = "k"%char) then Ok slotK
  else if decide (s = "A"%char ∨ s = "a"%char) then Ok slotA
  else if decide (s = "M"%char ∨ s = "m"%char) then Ok slotM
  else Panic "should never happen".

Section slot_combinations.
Context {ord : MapOrder}.

(** The loop that fills [slotCombinationsSet]. *)
Fixpoint gatherSlotCombinationsSet (set : gmap string ())
    (fmts : list InsnFormat) : Res (gmap string ()) :=
  match fmts with
  | [] => Ok set
  | f :: fmts =>
      (* skip EMPTY *)
      if decide (length (Args f) = 0%nat) then
        gatherSlotCombinationsSet set fmts
      else
        sc ← slotCombinationForFmt f;
        gatherSlotCombinationsSet (<[sc := ()]> set) fmts
  end.

Definition gatherDistinctSlotCombinations (fmts : list InsnFormat)
    : Res (list string) :=
  slotCombinationsSet ← gatherSlotCombinationsSet ∅ fmts;
  let result := (rangeMap slotCombinationsSet).*1 in
  Ok (sort_Strings result).
End slot_combinations.

(** ** Slot tags, as the claims list them *)

(** The tag of every offset that has one, as the claims list them. *)
Definition slotTags : list (Z * ascii) :=
  [(0, "D"%char); (5, "J"%char); (10, "K"%char); (15, "A"%char);
   (16, "M"%char)].

Definition knownOffsets : list Z := slotTags.*1.

Definition string_of_runes (cs : list ascii) : string :=
  foldr String EmptyString cs.

Fixpoint runes_of_string (s : string) : list ascii :=
  match s with
  | EmptyString => []
  | String c s => c :: runes_of_string s
  end.


(** ** Text constants that a Go string literal writes with an escape *)

Definition nl : string := String (ascii_of_nat 10) EmptyString.
Definition tab : string := String (ascii_of_nat 9) EmptyString.
Definition dq : string := String (ascii_of_nat 34) EmptyString.

(** Loops whose body may panic. *)
Fixpoint foldM {A B} (f : B → A → Res B) (b : B) (l : list A) : Res B :=
  match l with
  | [] => Ok b
  | a :: l => b' ← f b a; foldM f b' l
  end.

Fixpoint forM {A B} (f : A → Res B) (l : list A) : Res (list B) :=
  match l with
  | [] => Ok []
  | a :: l => b ← f a; bs ← forM f l; Ok (b :: bs)
  end.

(** ** The format catalog ([gatherFormats], identical in the three
    generators) *)

Section formats.
Context {cmn : Common} {ord : MapOrder}.

(** The body of the loop over [descs]. *)
Definition gatherFormatsStep (formatsSet : gmap string InsnFormat)
    (d : InsnDescription) : gmap string InsnFormat :=
  let canonicalFormatName := Fmt_CanonicalRepr (Format d) in
  match formatsSet !! canonicalFormatName with
  | Some _ => formatsSet
  | None => <[canonicalFormatName := Format d]> formatsSet
  end.

Definition gatherFormatsSet (descs : list InsnDescription)
    : gmap string InsnFormat :=
  foldl gatherFormatsStep ∅ descs.

Definition gatherFormats (descs : list InsnDescription)
    : list InsnFormat :=
  (rangeMap (gatherFormatsSet descs)).*2.

(** The comparisons handed to [sort.Slice] in every [main]: records by
    base opcode word, formats by canonical name. *)
Definition lessWord (di dj : InsnDescription) : bool :=
  (Word di <? Word dj)%N.

Definition lessFormat (fi fj : InsnFormat) : bool :=
  String.ltb (Fmt_CanonicalRepr fi) (Fmt_CanonicalRepr fj).
End formats.

(** ** What the generated text denotes

    The generators write expressions of the target language as text.  Next
    to each such text the embedding keeps the expression it denotes there
    (Go and C agree on how [>>], [<<], [&] and [|] group in the shapes
    written). *)

Inductive expr : Type :=
  | EVar (x : string)
  | EShl (e : expr) (n : Z)
  | EShr (e : expr) (n : Z)
  | EAnd (e : expr) (mask : Z).

(** Values are the mathematical integers the variables hold; a left
    shift happens in [uint32] and drops what leaves the word. *)
Fixpoint eval (env : string → Z) (e : expr) : Z :=
  match e with
  | EVar x => env x
  | EShl e n => wrap_uint32 (Z.shiftl (eval env e) n)
  | EShr e n => Z.shiftr (eval env e) n
  | EAnd e mask => Z.land (eval env e) mask
  end.

Record SlotExpr : Type := mkSlotExpr { se_text : string; se_sem : expr }.

(** The body of a generated slot encoder, [bits | d | j<<5 | k<<10]:
    one term per parameter, the parameter's rune and its offset.  All
    parameters are [uint32]. *)
Definition evalSlotEncoder (terms : list (ascii * Z)) (bits : Z)
    (args : list Z) : Z :=
  foldl (λ acc tv, Z.lor acc (wrap_uint32 (Z.shiftl (wrap_uint32 tv.2) tv.1.2)))
    (wrap_uint32 bits) (zip terms args).

(** The helpers of the Go assembler that a generated validator calls. *)
Inductive wantFn : Type :=
  | wantIntReg
  | wantFPReg
  | wantFCCReg
  | wantSignedImm
  | wantUnsignedImm.

(** One generated check, [if err := want...(...); err != nil { return err }]:
    the call as written, and its parts. *)
Record Check : Type := mkCheck {
  chk_text : string;
  chk_fn : wantFn;
  chk_arg : string;
  chk_width : option N
}.


(** ** [geninsndata]: validators, encoders and the encoding table for the
    Go assembler *)

Module GenInsnData.

Record emitterCtx : Type := mkCtx { buf : string }.

Definition emit (c : emitterCtx) (s : string) : emitterCtx :=
  {| buf := buf c +:+ s |}.

(** The conversions a generated encoder applies to the fields of the
    instruction. *)
Inductive Conv : Type := regInt | regFP | regFCC | conv_uint32.

Definition Conv_text (c : Conv) : string :=
  match c with
  | regInt => "regInt"
  | regFP => "regFP"
  | regFCC => "regFCC"
  | conv_uint32 => "uint32"
  end.

(** [varName := conv(fieldExpr)] *)
Record LocalDef : Type := mkLocalDef {
  ld_var : string;
  ld_conv : Conv;
  ld_field : string
}.

(** One [case] of the generated [encode]: the local definitions, the
    slot combination whose encoder is called, and the arguments passed
    after [enc.bits]. *)
Record BigCase : Type := mkBigCase {
  bc_locals : list LocalDef;
  bc_sc : string;
  bc_args : list SlotExpr
}.

Section with_env.
Context {cmn : Common} {ord : MapOrder} {srt : SortAlg}.

Definition finalize (c : emitterCtx) : Res string :=
  format_Source (buf c).

Definition emitInsnFormatTypes (ectx : emitterCtx)
    (fmts : list InsnFormat) : emitterCtx :=
  let ectx := emit ectx ("type insnFormat int" +:+ nl +:+ nl +:+
                         "const (" +:+ nl) in
  let ectx := emit ectx (tab +:+ "insnFormatUnknown insnFormat = iota"
                         +:+ nl) in
  let ectx :=
    foldl (λ ectx f,
             emit ectx (tab +:+ "insnFormat" +:+ Fmt_CanonicalRepr f
                        +:+ nl))
          ectx fmts in
  emit ectx (")" +:+ nl +:+ nl).

Definition goOpcodeNameForInsn (mnemonic : string) : string :=
  (* e.g. slli.w => ASLLIW *)
  let tmp := ReplaceAll1 mnemonic "."%char EmptyString in
  let tmp := ReplaceAll1 tmp "_"%char EmptyString in
  let tmp := ToUpper tmp in
  "A" +:+ tmp.

(** The line of the table written for one record. *)
Definition encodingLine (d : InsnDescription) : string :=
  let goOpcodeName := goOpcodeNameForInsn (Mnemonic d) in
  let formatName := "insnFormat" +:+ Fmt_CanonicalRepr (Format d) in
  tab +:+ goOpcodeName +:+ " & obj.AMask: {bits: 0x" +:+
    fmt_08x (Word d) +:+ ", fmt: " +:+ formatName +:+ "}," +:+ nl.

Definition emitInsnEncodings (ectx : emitterCtx)
    (descs : list InsnDescription) : emitterCtx :=
  let ectx := emit ectx ("type encoding struct {" +:+ nl) in
  let ectx := emit ectx (tab +:+ "bits uint32" +:+ nl) in
  let ectx := emit ectx (tab +:+ "fmt  insnFormat" +:+ nl) in
  let ectx := emit ectx ("}" +:+ nl +:+ nl) in
  let ectx := emit ectx ("var encodings = [ALAST & obj.AMask]encoding{"
                         +:+ nl) in
  let ectx := foldl (λ ectx d, emit ectx (encodingLine d)) ectx descs in
  emit ectx ("}" +:+ nl).

Definition insnFieldNameForRegArg (a : Arg) : Res string :=
  match Slots a with
  | [] => Panic "runtime error: index out of range [0] with length 0"
  | s :: _ =>
      let o := Z.of_N (Offset s) in
      if decide (o = slotD) then Ok "rd"
      else if decide (o = slotJ) then Ok "rj"
      else if decide (o = slotK) then Ok "rk"
      else if decide (o = slotA) then Ok "ra"
      else Panic "should never happen"
  end.

(** The loop of [fieldNamesForArgs], [immIdx] being its counter. *)
Fixpoint fieldNamesFrom (immIdx : Z) (args : list Arg)
    : Res (list string) :=
  match args with
  | [] => Ok []
  | a :: args =>
      if IsImm (Kind a) then
        let immIdx := immIdx + 1 in
        names ← fieldNamesFrom immIdx args;
        Ok (("imm" +:+ fmt_d immIdx) :: names)
      else
        (* register operand *)
        name ← insnFieldNameForRegArg a;
        names ← fieldNamesFrom immIdx args;
        Ok (name :: names)
  end.

Definition fieldNamesForArgs (args : list Arg) : Res (list string) :=
  fieldNamesFrom 0 args.

(** The [switch a.Kind] of [emitValidatorForFormat]. *)
Definition checkForArg (argParamName : string) (a : Arg) : Check :=
  match Kind a with
  | ArgKindIntReg =>
      mkCheck ("wantIntReg(insn.as, " +:+ argParamName +:+ ")")
              wantIntReg argParamName None
  | ArgKindFPReg =>
      mkCheck ("wantFPReg(insn.as, " +:+ argParamName +:+ ")")
              wantFPReg argParamName None
  | ArgKindFCCReg =>
      mkCheck ("wantFCCReg(insn.as, " +:+ argParamName +:+ ")")
              wantFCCReg argParamName None
  | ArgKindSignedImm =>
      (* want[Un]signedImm(argX, width) *)
      mkCheck ("wantSignedImm" +:+ "(insn.as, " +:+ argParamName +:+
               ", " +:+ pretty (TotalWidth a) +:+ ")")
              wantSignedImm argParamName (Some (TotalWidth a))
  | ArgKindUnsignedImm =>
      mkCheck ("wantUnsignedImm" +:+ "(insn.as, " +:+ argParamName +:+
               ", " +:+ pretty (TotalWidth a) +:+ ")")
              wantUnsignedImm argParamName (Some (TotalWidth a))
  end.

(** The checks of the validator written for [f], in the order
    written. *)
Definition validatorChecks (f : InsnFormat) : Res (list Check) :=
  argFieldNames ← fieldNamesForArgs (Args f);
  Ok (zip_with (λ a name, checkForArg ("insn." +:+ name) a)
               (Args f) argFieldNames).

Definition emitCheck (ectx : emitterCtx) (c : Check) : emitterCtx :=
  let ectx := emit ectx (tab +:+ "if err := ") in
  let ectx := emit ectx (chk_text c) in
  emit ectx ("; err != nil {" +:+ nl +:+ tab +:+ tab +:+ "return err"
             +:+ nl +:+ tab +:+ "}" +:+ nl).

Definition emitValidatorForFormat (ectx : emitterCtx) (f : InsnFormat)
    : Res emitterCtx :=
  let formatName := Fmt_CanonicalRepr f in
  let funcName := "validate" +:+ formatName in
  checks ← validatorChecks f;
  let ectx := emit ectx ("func " +:+ funcName +:+
                         "(insn *instruction) error {" +:+ nl) in
  (* for every arg X:
       if err := want<arg type>(argX); err != nil { return err } *)
  let ectx := foldl emitCheck ectx checks in
  Ok (emit ectx (tab +:+ "return nil" +:+ nl +:+ "}" +:+ nl +:+ nl)).

Definition slotEncoderFnNameForSc (sc : string) : string :=
  let plural :=
    if decide (1 < String.length sc)%nat then "s" else EmptyString in
  "encode" +:+ sc +:+ "Slot" +:+ plural.

(** The terms of [return bits | d | j<<5 ...] for a combination. *)
Definition slotEncoderTerms (sc : string) : Res (list (ascii * Z)) :=
  forM (λ s, offset ← slotOffsetFromRune s; Ok (s, offset))
       (runes_of_string (ToLower sc)).

Definition emitSlotTerm (ectx : emitterCtx) (t : ascii * Z)
    : emitterCtx :=
  let ectx := emit ectx (" | " +:+ string_of_rune t.1) in
  if decide (0 < t.2) then emit ectx ("<<" +:+ fmt_d t.2) else ectx.

Definition emitSlotEncoderFn (ectx : emitterCtx) (sc : string)
    : Res emitterCtx :=
  let funcName := slotEncoderFnNameForSc sc in
  let scLower := ToLower sc in
  terms ← slotEncoderTerms sc;
  let ectx := emit ectx ("func " +:+ funcName +:+ "(bits uint32") in
  let ectx :=
    foldl (λ ectx s, emit ectx (", " +:+ string_of_rune s +:+ " uint32"))
          ectx (runes_of_string scLower) in
  let ectx := emit ectx (") uint32 {" +:+ nl) in
  let ectx := emit ectx "return bits" in
  let ectx := foldl emitSlotTerm ectx terms in
  Ok (emit ectx (nl +:+ "}" +:+ nl +:+ nl)).

Definition emitSlotEncoders (ectx : emitterCtx) (scs : list string)
    : Res emitterCtx :=
  foldM emitSlotEncoderFn ectx scs.

(** The [switch a.Kind] choosing the conversion of a field. *)
Definition localDefForArg (varName fieldExpr : string) (a : Arg)
    : LocalDef :=
  match Kind a with
  | ArgKindIntReg => mkLocalDef varName regInt fieldExpr
  | ArgKindFPReg => mkLocalDef varName regFP fieldExpr
  | ArgKindFCCReg => mkLocalDef varName regFCC fieldExpr
  | ArgKindSignedImm | ArgKindUnsignedImm =>
      mkLocalDef varName conv_uint32 fieldExpr
  end.

(** The loop over the slots of a multi-slot argument.

    remainingBits is shift amount to extract the current slot from arg;
    take example of Sd5k16 = (MSB) DDDDDKKKKKKKKKKKKKKKK (LSB):
    initially remainingBits = 5+16; slot d5: remainingBits = 16, thus
    d5 = (sd5k16 >> 16) & 0b11111; slot k16: remainingBits = 0, thus
    k16 = sd5k16 & 0b1111111111111111. *)
Fixpoint multiSlotExprs (argVarName : string) (remainingBits : Z)
    (slots : list Slot) (slotExprs : gmap N SlotExpr)
    : gmap N SlotExpr :=
  match slots with
  | [] => slotExprs
  | s :: slots =>
      let remainingBits :=
        wrap_int (remainingBits - int_of_uint (Width s)) in
      let mask := wrap_int (int_shl1 (Z.of_N (Width s)) - 1) in
      let e :=
        if decide (0 < remainingBits) then
          mkSlotExpr
            (argVarName +:+ ">>" +:+ fmt_d remainingBits +:+ "&0x" +:+
             FormatUint16_of_int mask)
            (EAnd (EShr (EVar argVarName) remainingBits)
                  (wrap_uint mask))
        else
          mkSlotExpr
            (argVarName +:+ "&0x" +:+ FormatUint16_of_int mask)
            (EAnd (EVar argVarName) (wrap_uint mask)) in
      multiSlotExprs argVarName remainingBits slots
        (<[Offset s := e]> slotExprs)
  end.

(** collect slot expressions: the body of the loop over the arguments *)
Definition argSlotExprs (argVarName : string) (a : Arg)
    (slotExprs : gmap N SlotExpr) : gmap N SlotExpr :=
  match Slots a with
  | [s] => <[Offset s := mkSlotExpr argVarName (EVar argVarName)]> slotExprs
  | slots =>
      multiSlotExprs argVarName (int_of_uint (TotalWidth a)) slots
        slotExprs
  end.

Definition collectSlotExprs (argVarNames : list string)
    (args : list Arg) : gmap N SlotExpr :=
  foldl (λ slotExprs an, argSlotExprs an.2 an.1 slotExprs) ∅
        (zip args argVarNames).

(** The loop over the runes of the slot combination. *)
Definition callArgs (sc : string) (slotExprs : gmap N SlotExpr)
    : Res (list SlotExpr) :=
  forM (λ s,
          offset ← slotOffsetFromRune s;
          match slotExprs !! Z.to_N (wrap_uint offset) with
          | Some slotExpr => Ok slotExpr
          | None => Panic "should never happen"
          end)
       (runes_of_string sc).

(** What [emitBigEncoderFn] works out for one format; [None] is the
    special case EMPTY, [return enc.bits, nil]. *)
Definition bigEncoderCase (f : InsnFormat) : Res (option BigCase) :=
  if decide (length (Args f) = 0%nat) then Ok None
  else
    argFieldNames ← fieldNamesForArgs (Args f);
    let argVarNames := (λ a, ToLower (Arg_CanonicalRepr a)) <$> Args f in
    let locals :=
      zip_with (λ an field, localDefForArg an.2 ("enc." +:+ field) an.1)
               (zip (Args f) argVarNames) argFieldNames in
    let slotExprs := collectSlotExprs argVarNames (Args f) in
    sc ← slotCombinationForFmt f;
    args ← callArgs sc slotExprs;
    Ok (Some (mkBigCase locals sc args)).

Definition emitLocalDef (ectx : emitterCtx) (ld : LocalDef)
    : emitterCtx :=
  let ectx := emit ectx (ld_var ld +:+ " :=") in
  let ectx := emit ectx (Conv_text (ld_conv ld) +:+ "(" +:+ ld_field ld
                         +:+ ")") in
  emit ectx nl.

Definition emitBigCase (ectx : emitterCtx) (f : InsnFormat)
    : Res emitterCtx :=
  let formatName := Fmt_CanonicalRepr f in
  c ← bigEncoderCase f;
  let ectx := emit ectx (tab +:+ "case insnFormat" +:+ formatName +:+ ":"
                         +:+ nl) in
  match c with
  | None =>
      (* special-case EMPTY *)
      Ok (emit ectx (tab +:+ tab +:+ "return enc.bits, nil" +:+ nl))
  | Some c =>
      let ectx := foldl emitLocalDef ectx (bc_locals c) in
      let encFnName := slotEncoderFnNameForSc (bc_sc c) in
      let ectx := emit ectx ("return " +:+ encFnName +:+ "(enc.bits") in
      let ectx :=
        foldl (λ ectx slotExpr, emit ectx (", " +:+ se_text slotExpr))
              ectx (bc_args c) in
      Ok (emit ectx ("), nil" +:+ nl))
  end.

Definition emitBigEncoderFn (ectx : emitterCtx)
    (fmts : list InsnFormat) : Res emitterCtx :=
  let ectx :=
    emit ectx
      ("func (insn *instruction) encode() (uint32, error) {" +:+ nl +:+
       tab +:+ "enc, err := encodingForAs(insn.as)" +:+ nl +:+
       tab +:+ "if enc == nil {" +:+ nl +:+
       tab +:+ tab +:+ "return 0, err" +:+ nl +:+
       tab +:+ "}" +:+ nl +:+
       nl +:+
       tab +:+ "switch enc.fmt {" +:+ nl) in
  ectx ← foldM emitBigCase ectx fmts;
  let ectx :=
    emit ectx (tab +:+ "default:" +:+ nl +:+ tab +:+ tab +:+ "panic(" +:+
               dq +:+ "should never happen: unknown insn format" +:+ dq
               +:+ ")" +:+ nl) in
  Ok (emit ectx (tab +:+ "}" +:+ nl +:+ "}" +:+ nl)).

(** [main], from the records [readInsnDescs] returned on. *)
Definition main (descs : list InsnDescription) : Res string :=
  let formats := gatherFormats descs in
  scs ← gatherDistinctSlotCombinations formats;
  let descs := sort_Slice lessWord descs in
  let formats := sort_Slice lessFormat formats in
  let ectx := mkCtx EmptyString in
  let ectx :=
    emit ectx ("// Code generated by loongson-community/loongarch-opcodes"
               +:+ " geninsndata; DO NOT EDIT." +:+ nl +:+ nl) in
  let ectx := emit ectx ("package loong" +:+ nl +:+ nl) in
  let ectx := emit ectx ("import " +:+ dq +:+ "cmd/internal/obj" +:+ dq
                         +:+ nl +:+ nl) in
  let ectx := emitInsnFormatTypes ectx formats in
  ectx ← foldM emitValidatorForFormat ectx formats;
  ectx ← emitSlotEncoders ectx scs;
  let ectx := emitInsnEncodings ectx descs in
  ectx ← emitBigEncoderFn ectx formats;
  finalize ectx.
End with_env.

(** *** What a generated [case] computes

    [reg] is what the assembler's [regInt], [regFP] and [regFCC] return;
    [fields] holds the operand fields; [bits] is the base opcode word. *)
Definition evalConv (reg : Conv → Z → Z) (c : Conv) (v : Z) : Z :=
  match c with
  | conv_uint32 => wrap_uint32 v
  | _ => reg c v
  end.

Definition localEnv (reg : Conv → Z → Z) (fields : string → Z)
    (locals : list LocalDef) : string → Z :=
  foldl (λ env ld, <[ld_var ld := evalConv reg (ld_conv ld)
                                    (fields (ld_field ld))]> env)
        (λ _, 0) locals.

Definition evalBigCase (reg : Conv → Z → Z) (fields : string → Z)
    (bits : Z) (c : BigCase) : Res Z :=
  let env := localEnv reg fields (bc_locals c) in
  terms ← slotEncoderTerms (bc_sc c);
  Ok (evalSlotEncoder terms bits ((λ e, eval env (se_sem e)) <$> bc_args c)).

(** What the generated [encode] returns for an instruction of format
    [f]: the case of [f] is the one the [switch] selects. *)
Definition evalEncode {cmn : Common} (reg : Conv → Z → Z)
    (fields : string → Z) (bits : Z) (f : InsnFormat) : Res Z :=
  c ← bigEncoderCase f;
  match c with
  | None => Ok (wrap_uint32 bits)
  | Some c => evalBigCase reg fields bits c
  end.

End GenInsnData.

(** ** [geninstformats]: the earlier generator for the Go assembler, one
    validator and one encoder per format *)

Module GenInstFormats.

Record emitterCtx : Type := mkCtx { buf : string }.

Definition emit (c : emitterCtx) (s : string) : emitterCtx :=
  {| buf := buf c +:+ s |}.

(** One generated statement [bits |= e]. *)
Record Stmt : Type := mkStmt { st_text : string; st_sem : expr }.

Section with_env.
Context {cmn : Common} {ord : MapOrder} {srt : SortAlg}.

Definition finalize (c : emitterCtx) : Res string :=
  format_Source (buf c).

Definition emitInsnFormatTypes (ectx : emitterCtx)
    (fmts : list InsnFormat) : emitterCtx :=
  let ectx := emit ectx ("type insnFormat int" +:+ nl +:+ nl +:+
                         "const (" +:+ nl) in
  let ectx := emit ectx (tab +:+ "insnFormatUnknown insnEncoding = iota"
                         +:+ nl) in
  let ectx :=
    foldl (λ ectx f,
             emit ectx (tab +:+ "insnFormat" +:+ Fmt_CanonicalRepr f
                        +:+ nl))
          ectx fmts in
  emit ectx (")" +:+ nl +:+ nl).

Definition goOpcodeNameForInsn (mnemonic : string) : string :=
  (* e.g. slli.w => ASLLIW *)
  let tmp := ReplaceAll1 mnemonic "."%char EmptyString in
  let tmp := ReplaceAll1 tmp "_"%char EmptyString in
  let tmp := ToUpper tmp in
  "A" +:+ tmp.

Definition encodingLine (d : InsnDescription) : string :=
  let goOpcodeName := goOpcodeNameForInsn (Mnemonic d) in
  let formatName := "insnFormat" +:+ Fmt_CanonicalRepr (Format d) in
  tab +:+ goOpcodeName +:+ " & obj.AMask: {bits: 0x" +:+
    fmt_08x (Word d) +:+ ", fmt: " +:+ formatName +:+ "}," +:+ nl.

Definition emitInsnEncodings (ectx : emitterCtx)
    (descs : list InsnDescription) : emitterCtx :=
  let ectx := emit ectx ("type encoding struct {" +:+ nl) in
  let ectx := emit ectx (tab +:+ "bits uint32" +:+ nl) in
  let ectx := emit ectx (tab +:+ "fmt  insnFormat" +:+ nl) in
  let ectx := emit ectx ("}" +:+ nl +:+ nl) in
  let ectx := emit ectx ("var encodings = [ALAST & obj.AMask]encoding{"
                         +:+ nl) in
  let ectx := foldl (λ ectx d, emit ectx (encodingLine d)) ectx descs in
  emit ectx ("}" +:+ nl).

Definition argNamesOf (f : InsnFormat) : list string :=
  (λ a, ToLower (Arg_CanonicalRepr a)) <$> Args f.

(** [", "]-separated parameter list: the separator is written before
    every parameter but the first. *)
Fixpoint emitParams (ectx : emitterCtx) (first : bool)
    (argNames : list string) : emitterCtx :=
  match argNames with
  | [] => ectx
  | p :: argNames =>
      let sep := if first then EmptyString else ", " in
      emitParams (emit ectx (sep +:+ p +:+ " uint32")) false argNames
  end.

(** The [switch a.Kind] of [emitValidatorForFormat]. *)
Definition checkForArg (argParamName : string) (a : Arg) : Check :=
  match Kind a with
  | ArgKindIntReg =>
      mkCheck ("wantIntReg(" +:+ argParamName +:+ ")")
              wantIntReg argParamName None
  | ArgKindFPReg =>
      mkCheck ("wantFPReg(" +:+ argParamName +:+ ")")
              wantFPReg argParamName None
  | ArgKindFCCReg =>
      mkCheck ("wantFCCReg(" +:+ argParamName +:+ ")")
              wantFCCReg argParamName None
  | ArgKindSignedImm =>
      (* want[Un]signedImm(argX, width) *)
      mkCheck ("wantSignedImm" +:+ "(" +:+ argParamName +:+ ", " +:+
               pretty (TotalWidth a) +:+ ")")
              wantSignedImm argParamName (Some (TotalWidth a))
  | ArgKindUnsignedImm =>
      mkCheck ("wantUnsignedImm" +:+ "(" +:+ argParamName +:+ ", " +:+
               pretty (TotalWidth a) +:+ ")")
              wantUnsignedImm argParamName (Some (TotalWidth a))
  end.

(** The checks of the validator written for [f], in the order
    written. *)
Definition validatorChecks (f : InsnFormat) : list Check :=
  zip_with (λ a name, checkForArg name a) (Args f) (argNamesOf f).

Definition emitCheck (ectx : emitterCtx) (c : Check) : emitterCtx :=
  let ectx := emit ectx (tab +:+ "if err := ") in
  let ectx := emit ectx (chk_text c) in
  emit ectx ("; err != nil {" +:+ nl +:+ tab +:+ tab +:+ "return err"
             +:+ nl +:+ tab +:+ "}" +:+ nl).

Definition emitValidatorForFormat (ectx : emitterCtx) (f : InsnFormat)
    : emitterCtx :=
  let formatName := Fmt_CanonicalRepr f in
  let funcName := "validate" +:+ formatName in
  let argNames := argNamesOf f in
  let ectx := emit ectx ("func " +:+ funcName +:+ "(") in
  let ectx := emitParams ectx true argNames in
  let ectx := emit ectx (") error {" +:+ nl) in
  let ectx := foldl emitCheck ectx (validatorChecks f) in
  emit ectx (tab +:+ "return nil" +:+ nl +:+ "}" +:+ nl +:+ nl).

(** The loop over the slots of a multi-slot argument; no shift to the
    slot's offset is written. *)
Fixpoint multiSlotStmts (argParamName : string) (remainingBits : Z)
    (slots : list Slot) : list Stmt :=
  match slots with
  | [] => []
  | s :: slots =>
      let remainingBits :=
        wrap_int (remainingBits - int_of_uint (Width s)) in
      let mask := wrap_int (int_shl1 (Z.of_N (Width s)) - 1) in
      let st :=
        if decide (0 < remainingBits) then
          mkStmt (tab +:+ "bits |= " +:+ argParamName +:+ " >> " +:+
                  fmt_d remainingBits +:+ " & " +:+ fmt_sharp_x mask
                  +:+ nl)
                 (EAnd (EShr (EVar argParamName) remainingBits) mask)
        else
          mkStmt (tab +:+ "bits |= " +:+ argParamName +:+ " & " +:+
                  fmt_sharp_x mask +:+ nl)
                 (EAnd (EVar argParamName) mask) in
      st :: multiSlotStmts argParamName remainingBits slots
  end.

(** for every arg X: if only one slot, [bits |= argX << slot offset];
    else for every slot in arg, [bits |= (slot value)]. *)
Definition argStmts (argParamName : string) (a : Arg) : list Stmt :=
  match Slots a with
  | [s] =>
      let offset := int_of_uint (Offset s) in
      if decide (offset ≠ 0) then
        [mkStmt (tab +:+ "bits |= " +:+ argParamName +:+ " << " +:+
                 fmt_d offset +:+ nl)
                (EShl (EVar argParamName) offset)]
      else
        [mkStmt (tab +:+ "bits |= " +:+ argParamName +:+ nl)
                (EVar argParamName)]
  | slots => multiSlotStmts argParamName (int_of_uint (TotalWidth a)) slots
  end.

(** The statements of the encoder written for [f]. *)
Definition encoderStmts (f : InsnFormat) : list Stmt :=
  an ← zip (Args f) (argNamesOf f); argStmts an.2 an.1.

Definition emitEncoderForFormat (ectx : emitterCtx) (f : InsnFormat)
    : emitterCtx :=
  let formatName := Fmt_CanonicalRepr f in
  let funcName := "encode" +:+ formatName in
  let argNames := argNamesOf f in
  (* func encodeXXX(bits uint32, params...) uint32 { *)
  let ectx := emit ectx ("func " +:+ funcName +:+ "(bits uint32") in
  let ectx :=
    foldl (λ ectx p, emit ectx (", " +:+ p +:+ " uint32")) ectx argNames in
  let ectx := emit ectx (") uint32 {" +:+ nl) in
  let ectx :=
    foldl (λ ectx st, emit ectx (st_text st)) ectx (encoderStmts f) in
  emit ectx (tab +:+ "return bits" +:+ nl +:+ "}" +:+ nl +:+ nl).

Definition main (descs : list InsnDescription) : Res string :=
  let formats := gatherFormats descs in
  let descs := sort_Slice lessWord descs in
  let formats := sort_Slice lessFormat formats in
  let ectx := mkCtx EmptyString in
  let ectx := emit ectx ("package loong" +:+ nl +:+ nl) in
  let ectx := emit ectx ("import " +:+ dq +:+ "cmd/internal/obj" +:+ dq
                         +:+ nl +:+ nl) in
  let ectx := emitInsnFormatTypes ectx formats in
  let ectx :=
    foldl (λ ectx f,
             let ectx := emitValidatorForFormat ectx f in
             emitEncoderForFormat ectx f)
          ectx formats in
  let ectx := emitInsnEncodings ectx descs in
  finalize ectx.
End with_env.

(** What a generated encoder computes: every parameter and [bits] are
    [uint32]. *)
Definition evalEncoder (env : string → Z) (bits : Z) (stmts : list Stmt)
    : Z :=
  foldl (λ bits st, Z.lor bits (wrap_uint32 (eval env (st_sem st))))
        (wrap_uint32 bits) stmts.

End GenInstFormats.

(** ** [genqemutcgdefs]: opcodes and encoders for QEMU's TCG backend *)

Module GenQemuTcgDefs.

Definition attribUnused : string := "__attribute__((unused))".

(** [common.EmitterCtx]: the buffer, and whether [Finalize] skips
    gofmt. *)
Record EmitterCtx : Type := mkCtx { DontGofmt : bool; Buf : string }.

Definition Emit (c : EmitterCtx) (s : string) : EmitterCtx :=
  {| DontGofmt := DontGofmt c; Buf := Buf c +:+ s |}.

(** The C types of the parameters of the generated functions. *)
Inductive CType : Type := TCGReg | int32_t | uint32_t.

Definition CType_text (t : CType) : string :=
  match t with
  | TCGReg => "TCGReg"
  | int32_t => "int32_t"
  | uint32_t => "uint32_t"
  end.

Record fieldDesc : Type := mkFieldDesc { name : string; typ : CType }.

(** One generated [tcg_debug_assert(...)]: the condition as written,
    the variable it constrains, and the bounds: [var >= lo && var <= hi],
    or [var <= hi] alone. *)
Record Assert : Type := mkAssert {
  as_text : string;
  as_var : string;
  as_lo : option Z;
  as_hi : Z
}.

(** The encoder written for one format. *)
Record FmtEncoder : Type := mkFmtEncoder {
  fe_params : list fieldDesc;
  fe_asserts : list Assert;
  fe_sc : string;
  fe_args : list SlotExpr
}.

Section with_env.
Context {cmn : Common} {ord : MapOrder} {srt : SortAlg}.

(** Modelled from the spec: [EmitterCtx.Finalize] of package [common],
    which is not among the sources; the buffer is handed on as it is
    when gofmt is switched off, and through [format.Source]
    otherwise. *)
Definition Finalize (c : EmitterCtx) : Res string :=
  if DontGofmt c then Ok (Buf c) else format_Source (Buf c).

(** The loop of [filterUnusedInsns]. *)
Definition filterUnusedInsns (descs : list InsnDescription)
    : list InsnDescription :=
  foldl (λ result d,
           if decide ("qemu" ∈ Attribs d) then result ++ [d]
           else
             (* QEMU TCG doesn't emit this instruction for now, so
                ignore this to reduce code size. *)
             result)
        [] descs.

(* e.g. "amadd_db.w" -> "AMADD_DB_W" *)
Definition insnMnemonicToUpperCase (x : string) : string :=
  ToUpper (ReplaceAll1 x "."%char "_").

Definition insnMnemonicToEnumVariantName (x : string) : string :=
  "OPC_" +:+ insnMnemonicToUpperCase x.

Definition emitOpcEnum (ectx : EmitterCtx)
    (descs : list InsnDescription) : EmitterCtx :=
  let ectx := Emit ectx (nl +:+ "typedef enum {" +:+ nl) in
  let ectx :=
    foldl (λ ectx d,
             let enumVariantName :=
               insnMnemonicToEnumVariantName (Mnemonic d) in
             Emit ectx ("    " +:+ enumVariantName +:+ " = 0x" +:+
                        fmt_08x (Word d) +:+ "," +:+ nl))
          ectx descs in
  Emit ectx ("} LoongArchInsn;" +:+ nl).

Definition insnFieldNameForRegArg (a : Arg) : string :=
  ToLower (Arg_CanonicalRepr a).

Definition fieldDescsForArgs (args : list Arg) : list fieldDesc :=
  (λ a,
     let fieldName := insnFieldNameForRegArg a in
     let typ :=
       match Kind a with
       | ArgKindIntReg | ArgKindFPReg | ArgKindFCCReg => TCGReg
       | ArgKindSignedImm => int32_t
       | ArgKindUnsignedImm => uint32_t
       end in
     mkFieldDesc fieldName typ) <$> args.

Definition slotEncoderFnNameForSc (sc : string) : string :=
  let plural :=
    if decide (1 < String.length sc)%nat then "s" else EmptyString in
  "encode_" +:+ ToLower sc +:+ "_slot" +:+ plural.

(** The terms of [return opc | d | j << 5 ...] for a combination. *)
Definition slotEncoderTerms (sc : string) : Res (list (ascii * Z)) :=
  forM (λ s, offset ← slotOffsetFromRune s; Ok (s, offset))
       (runes_of_string (ToLower sc)).

Definition emitSlotTerm (ectx : EmitterCtx) (t : ascii * Z)
    : EmitterCtx :=
  let ectx := Emit ectx (" | " +:+ string_of_rune t.1) in
  if decide (0 < t.2) then Emit ectx (" << " +:+ fmt_d t.2) else ectx.

Definition emitSlotEncoderFn (ectx : EmitterCtx) (sc : string)
    : Res EmitterCtx :=
  let funcName := slotEncoderFnNameForSc sc in
  let scLower := ToLower sc in
  terms ← slotEncoderTerms sc;
  let ectx := Emit ectx (nl +:+ "static int32_t " +:+ attribUnused +:+ nl
                         +:+ funcName +:+ "(LoongArchInsn opc") in
  let ectx :=
    foldl (λ ectx s, Emit ectx (", uint32_t " +:+ string_of_rune s))
          ectx (runes_of_string scLower) in
  let ectx := Emit ectx (")" +:+ nl +:+ "{" +:+ nl) in
  let ectx := Emit ectx "    return opc" in
  let ectx := foldl emitSlotTerm ectx terms in
  Ok (Emit ectx (";" +:+ nl +:+ "}" +:+ nl)).

Definition emitSlotEncoders (ectx : EmitterCtx) (scs : list string)
    : Res EmitterCtx :=
  foldM emitSlotEncoderFn ectx scs.

Definition fmtEncoderFnNameForInsnFormat (f : InsnFormat) : string :=
  "encode_" +:+ ToLower (Fmt_CanonicalRepr f) +:+ "_insn".

(** The [switch a.Kind] that writes the bound of one argument. *)
Definition assertForArg (varName : string) (a : Arg) : Assert :=
  match Kind a with
  | ArgKindIntReg | ArgKindFPReg | ArgKindFCCReg =>
      (* 0 <= x <= max *)
      let max := wrap_int (int_shl1 (Z.of_N (TotalWidth a)) - 1) in
      mkAssert (varName +:+ " >= 0 && " +:+ varName +:+ " <= 0x" +:+
                fmt_x max)
               varName (Some 0) max
  | ArgKindSignedImm =>
      (* -min <= x <= max *)
      let max :=
        wrap_int
          (int_shl1 (wrap_uint (Z.of_N (TotalWidth a) - 1)) - 1) in
      let negativeMin := wrap_int (max + 1) in
      mkAssert (varName +:+ " >= -0x" +:+ fmt_x negativeMin +:+ " && "
                +:+ varName +:+ " <= 0x" +:+ fmt_x max)
               varName (Some (- negativeMin)) max
  | ArgKindUnsignedImm =>
      (* x <= max *)
      let max := wrap_int (int_shl1 (Z.of_N (TotalWidth a)) - 1) in
      mkAssert (varName +:+ " <= 0x" +:+ fmt_x max) varName None max
  end.

(** The loop over the slots of a multi-slot argument (see the example
    of Sd5k16 in [GenInsnData.multiSlotExprs]). *)
Fixpoint multiSlotExprs (argVarName : string) (remainingBits : Z)
    (slots : list Slot) (slotExprs : gmap N SlotExpr)
    : gmap N SlotExpr :=
  match slots with
  | [] => slotExprs
  | s :: slots =>
      let remainingBits :=
        wrap_int (remainingBits - int_of_uint (Width s)) in
      let mask := wrap_int (int_shl1 (Z.of_N (Width s)) - 1) in
      let e :=
        if decide (0 < remainingBits) then
          mkSlotExpr
            ("(" +:+ argVarName +:+ " >> " +:+ fmt_d remainingBits +:+
             ")" +:+ " & 0x" +:+ FormatUint16_of_int mask)
            (EAnd (EShr (EVar argVarName) remainingBits)
                  (wrap_uint mask))
        else
          mkSlotExpr
            (argVarName +:+ " & 0x" +:+ FormatUint16_of_int mask)
            (EAnd (EVar argVarName) (wrap_uint mask)) in
      multiSlotExprs argVarName remainingBits slots
        (<[Offset s := e]> slotExprs)
  end.

(** collect slot expressions: the body of the loop over the arguments *)
Definition argSlotExprs (argVarName : string) (a : Arg)
    (slotExprs : gmap N SlotExpr) : gmap N SlotExpr :=
  match Slots a with
  | [s] =>
      if decide (Kind a = ArgKindSignedImm) then
        (* signed imms need masking to convert to unsigned slot value *)
        let mask := wrap_int (int_shl1 (Z.of_N (TotalWidth a)) - 1) in
        <[Offset s := mkSlotExpr (argVarName +:+ " & 0x" +:+ fmt_x mask)
                                 (EAnd (EVar argVarName) mask)]> slotExprs
      else
        (* and pass through everything else *)
        <[Offset s := mkSlotExpr argVarName (EVar argVarName)]> slotExprs
  | slots =>
      multiSlotExprs argVarName (int_of_uint (TotalWidth a)) slots
        slotExprs
  end.

Definition collectSlotExprs (argFieldDescs : list fieldDesc)
    (args : list Arg) : gmap N SlotExpr :=
  foldl (λ slotExprs ad, argSlotExprs (name ad.2) ad.1 slotExprs) ∅
        (zip args argFieldDescs).

(** The loop over the runes of the slot combination. *)
Definition callArgs (sc : string) (slotExprs : gmap N SlotExpr)
    : Res (list SlotExpr) :=
  forM (λ s,
          offset ← slotOffsetFromRune s;
          match slotExprs !! Z.to_N (wrap_uint offset) with
          | Some slotExpr => Ok slotExpr
          | None => Panic "should never happen"
          end)
       (runes_of_string sc).

(** What [emitFmtEncoderFn] works out for one format; [None] for
    EMPTY, which doesn't need an encoder after all. *)
Definition fmtEncoder (f : InsnFormat) : Res (option FmtEncoder) :=
  if decide (length (Args f) = 0%nat) then Ok None
  else
    let argFieldDescs := fieldDescsForArgs (Args f) in
    let asserts :=
      zip_with (λ a fd, assertForArg (name fd) a) (Args f) argFieldDescs in
    let slotExprs := collectSlotExprs argFieldDescs (Args f) in
    sc ← slotCombinationForFmt f;
    args ← callArgs sc slotExprs;
    Ok (Some (mkFmtEncoder argFieldDescs asserts sc args)).

Definition emitFmtEncoderFn (ectx : EmitterCtx) (f : InsnFormat)
    : Res EmitterCtx :=
  e ← fmtEncoder f;
  match e with
  | None => Ok ectx
  | Some e =>
      let ectx :=
        Emit ectx (nl +:+ "static int32_t " +:+ attribUnused +:+ nl +:+
                   fmtEncoderFnNameForInsnFormat f +:+
                   "(LoongArchInsn opc") in
      let ectx :=
        foldl (λ ectx fd,
                 Emit ectx (", " +:+ CType_text (typ fd) +:+ " " +:+
                            name fd))
              ectx (fe_params e) in
      let ectx := Emit ectx (")" +:+ nl +:+ "{" +:+ nl) in
      let ectx :=
        foldl (λ ectx a,
                 let ectx := Emit ectx "    tcg_debug_assert(" in
                 let ectx := Emit ectx (as_text a) in
                 Emit ectx (");" +:+ nl))
              ectx (fe_asserts e) in
      let encFnName := slotEncoderFnNameForSc (fe_sc e) in
      let ectx := Emit ectx ("    return " +:+ encFnName +:+ "(opc") in
      let ectx :=
        foldl (λ ectx slotExpr, Emit ectx (", " +:+ se_text slotExpr))
              ectx (fe_args e) in
      Ok (Emit ectx (");" +:+ nl +:+ "}" +:+ nl))
  end.

(** transform InsnDescription to syntax example, e.g.
    [addi.d d, j, sk12] *)
Fixpoint syntaxArgs (first : bool) (args : list Arg) : string :=
  match args with
  | [] => EmptyString
  | a :: args =>
      (if first then " " else ", ") +:+ ToLower (Arg_CanonicalRepr a)
        +:+ syntaxArgs false args
  end.

Definition insnSyntaxDescForInsn (d : InsnDescription) : string :=
  if decide (length (Args (Format d)) = 0%nat) then
    (* special-case EMPTY *)
    Mnemonic d
  else Mnemonic d +:+ syntaxArgs true (Args (Format d)).

Definition emitTCGEmitterForInsn (ectx : EmitterCtx)
    (d : InsnDescription) : EmitterCtx :=
  let opc := insnMnemonicToEnumVariantName (Mnemonic d) in
  let opcLower := ToLower opc in
  let argFieldDescs := fieldDescsForArgs (Args (Format d)) in
  (* docstring line *)
  let ectx := Emit ectx (nl +:+ "/* Emits the `" +:+
                         insnSyntaxDescForInsn d +:+
                         "` instruction.  */" +:+ nl) in
  (* function header *)
  let ectx := Emit ectx ("static void " +:+ attribUnused +:+ nl +:+
                         "tcg_out_" +:+ opcLower +:+ "(TCGContext *s") in
  let ectx :=
    foldl (λ ectx fd,
             Emit ectx (", " +:+ CType_text (typ fd) +:+ " " +:+ name fd))
          ectx argFieldDescs in
  let ectx := Emit ectx (")" +:+ nl +:+ "{" +:+ nl) in
  if decide (length (Args (Format d)) = 0%nat) then
    (* special-case EMPTY *)
    let ectx := Emit ectx ("    tcg_out32(s, " +:+ opc +:+ ");" +:+ nl) in
    Emit ectx ("}" +:+ nl)
  else
    (* body and tail *)
    let fmtEncoderFnName := fmtEncoderFnNameForInsnFormat (Format d) in
    let ectx := Emit ectx ("    tcg_out32(s, " +:+ fmtEncoderFnName +:+
                           "(" +:+ opc) in
    let ectx :=
      foldl (λ ectx fd, Emit ectx (", " +:+ name fd)) ectx argFieldDescs in
    let ectx := Emit ectx ("));" +:+ nl) in
    Emit ectx ("}" +:+ nl).

(** [main], from the records [common.ReadInsnDescs] returned on. *)
Definition main (descs : list InsnDescription) : Res string :=
  let descs := filterUnusedInsns descs in
  let formats := gatherFormats descs in
  scs ← gatherDistinctSlotCombinations formats;
  let descs := sort_Slice lessWord descs in
  let formats := sort_Slice lessFormat formats in
  let ectx := mkCtx true EmptyString in
  let ectx := Emit ectx ("/* SPDX-License-Identifier: MIT */" +:+ nl) in
  let ectx := Emit ectx ("/*" +:+ nl) in
  let ectx :=
    Emit ectx (" * LoongArch instruction formats, opcodes, and encoders"
               +:+ " for TCG use." +:+ nl) in
  let ectx := Emit ectx (" *" +:+ nl) in
  let ectx :=
    Emit ectx (" * This file is auto-generated by genqemutcgdefs from"
               +:+ nl) in
  let ectx :=
    Emit ectx (" * https://github.com/loongson-community/loongarch-opcodes,"
               +:+ nl) in
  let ectx :=
    Emit ectx (" * from commit " +:+ MustGetGitCommitHash +:+ "." +:+ nl) in
  let ectx := Emit ectx (" * DO NOT EDIT." +:+ nl) in
  let ectx := Emit ectx (" */" +:+ nl) in
  let ectx := emitOpcEnum ectx descs in
  ectx ← emitSlotEncoders ectx scs;
  ectx ← foldM emitFmtEncoderFn ectx formats;
  let ectx := foldl emitTCGEmitterForInsn ectx descs in
  let ectx := Emit ectx (nl +:+ "/* End of generated code.  */" +:+ nl) in
  result ← Finalize ectx;
  (* format the generated code with clang-format, using the qemu
     style *)
  clang_format result.
End with_env.

(** *** What a generated encoder computes *)

(** A value handed to a parameter takes the parameter's type. *)
Definition paramValue (t : CType) (v : Z) : Z :=
  match t with
  | TCGReg => v
  | int32_t => wrap_int32 v
  | uint32_t => wrap_uint32 v
  end.

(** The parameters bound to the operands passed, in order. *)
Definition paramEnv (params : list fieldDesc) (operands : list Z)
    : string → Z :=
  foldl (λ env pv, <[name pv.1 := paramValue (typ pv.1) pv.2]> env)
        (λ _, 0) (zip params operands).

(** The condition of an assertion, with the comparisons taken on the
    integers the operands denote; C compares that way as long as the
    bounds written fit an [int], which they do for widths up to 31. *)
Definition assertPasses (env : string → Z) (a : Assert) : bool :=
  match as_lo a with
  | Some lo => bool_decide (lo ≤ env (as_var a))
  | None => true
  end && bool_decide (env (as_var a) ≤ as_hi a).

(** The word returned for a base opcode and operands, when every
    assertion holds; [None] when [tcg_debug_assert] stops the program. *)
Definition evalFmtEncoder (e : FmtEncoder) (opc : Z) (operands : list Z)
    : Res (option Z) :=
  let env := paramEnv (fe_params e) operands in
  terms ← slotEncoderTerms (fe_sc e);
  if forallb (assertPasses env) (fe_asserts e) then
    Ok (Some (evalSlotEncoder terms opc
                ((λ x, eval env (se_sem x)) <$> fe_args e)))
  else Ok None.

(** The word a generated [tcg_out_...] hands to [tcg_out32] for an
    instruction of format [f]: the opcode itself for EMPTY, the result of
    the encoder of [f] otherwise. *)
Definition evalTCGEmitter {cmn : Common} (f : InsnFormat) (opc : Z)
    (operands : list Z) : Res (option Z) :=
  e ← fmtEncoder f;
  match e with
  | None => Ok (Some opc)
  | Some e => evalFmtEncoder e opc operands
  end.

End GenQemuTcgDefs.

(** ** Signatures of records, for stating what the catalog holds *)

Section catalog_spec.
Context {cmn : Common}.

(** The canonical signature of the format of a record. *)
Definition sigOf (d : InsnDescription) : string :=
  Fmt_CanonicalRepr (Format d).

(** The first record of [descs] whose format has the signature
    [name]. *)
Definition firstWith (name : string) (descs : list InsnDescription)
    : option InsnDescription :=
  snd <$> list_find (λ d, sigOf d = name) descs.
End catalog_spec.

(** ** Reading single arguments and checks, for stating the claims *)

Section semantic_spec.
Context {cmn : Common}.

End semantic_spec.



(** The offsets at which [geninsndata] knows the field of a register. *)
Definition regFieldKnown (a : Arg) : Prop :=
  IsImm (Kind a) = true ∨
  ∃ s rest, Slots a = s :: rest ∧ Z.of_N (Offset s) ∈ [0; 5; 10; 15].


(** Lines of text, one after the other. *)
Definition concat_strings (l : list string) : string :=
  foldr String.append EmptyString l.




(** The text before the first line of the encoding table. *)
Definition tableHeader : string :=
  "type encoding struct {" +:+ nl +:+
  tab +:+ "bits uint32" +:+ nl +:+
  tab +:+ "fmt  insnFormat" +:+ nl +:+
  "}" +:+ nl +:+ nl +:+
  "var encodings = [ALAST & obj.AMask]encoding{" +:+ nl.

(** What the generated encoder passes on for the slot at [offset] of the
    argument [a] when the operand of [a] holds [v]: for the QEMU
    generator and for [geninsndata]. *)
Definition qemuFragment (a : Arg) (offset : N) (v : Z) : option Z :=
  (λ e, eval (λ _, v) (se_sem e))
    <$> (GenQemuTcgDefs.argSlotExprs "x" a ∅ !! offset).

Definition goFragment (a : Arg) (offset : N) (v : Z) : option Z :=
  (λ e, eval (λ _, v) (se_sem e))
    <$> (GenInsnData.argSlotExprs "x" a ∅ !! offset).

(** ** Formats as the generators expect them, for stating further
    properties *)

(** Every slot of the format, argument by argument. *)
Definition fmtSlots (f : InsnFormat) : list Slot :=
  a ← Args f; Slots a.

(** The offsets are Go [uint]s. *)
Definition uintOffsets (f : InsnFormat) : Prop :=
  Forall (λ s, (Offset s < 2 ^ 64)%N) (fmtSlots f).

(** Every slot sits at an offset that has a tag. *)
Definition knownSlots (f : InsnFormat) : Prop :=
  Forall (λ s, Z.of_N (Offset s) ∈ knownOffsets) (fmtSlots f).

(** The field of the instruction that holds a register, by the offset
    of the register's first slot. *)
Definition regFields : list (Z * string) :=
  [(0, "rd"); (5, "rj"); (10, "rk"); (15, "ra")].

(** How many of the arguments are immediates. *)
Definition immCount (args : list Arg) : nat :=
  length (filter (λ a, IsImm (Kind a) = true) args).

(** The sum of the widths of slots. *)
Definition widthSum (slots : list Slot) : N :=
  foldr (λ s acc, Width s + acc)%N 0%N slots.




Global Instance uintOffsets_dec f : Decision (uintOffsets f).
Proof. unfold uintOffsets. apply _. Defined.

Global Instance knownSlots_dec f : Decision (knownSlots f).
Proof. unfold knownSlots. apply _. Defined.

Global Instance regFieldKnown_dec a : Decision (regFieldKnown a).
Proof.
  unfold regFieldKnown.
  destruct (Slots a) as [|s rest].
  - destruct (decide (IsImm (Kind a) = true)) as [Hk|Hk]; [by left; left|].
    right. intros [?|(? & ? & ? & _)]; done.
  - destruct (decide (IsImm (Kind a) = true)) as [Hk|Hk]; [by left; left|].
    destruct (decide (Z.of_N (Offset s) ∈ [0; 5; 10; 15])) as [Ho|Ho].
    + left. right. by exists s, rest.
    + right. intros [?|(s' & rest' & [= <- <-] & ?)]; done.
Defined.




(** No two of the slots share a bit. *)
Fixpoint slotsApart (slots : list Slot) : Prop :=
  match slots with
  | [] => True
  | s :: slots =>
      Forall (λ s', (Offset s + Width s ≤ Offset s')%N ∨
                    (Offset s' + Width s' ≤ Offset s)%N) slots ∧
      slotsApart slots
  end.

Global Instance slotsApart_dec slots : Decision (slotsApart slots).
Proof. induction slots as [|s slots IH]; simpl; apply _. Defined.

(** The operand fits the kind and the total width of the argument. *)
Definition operandFits (a : Arg) (v : Z) : Prop :=
  let W := Z.of_N (TotalWidth a) in
  match Kind a with
  | ArgKindSignedImm => - 2 ^ (W - 1) ≤ v ≤ 2 ^ (W - 1) - 1
  | _ => 0 ≤ v ≤ 2 ^ W - 1
  end.

Global Instance operandFits_dec a v : Decision (operandFits a v).
Proof. unfold operandFits. destruct (Kind a); apply _. Defined.


(** A format laid out in a word of 32 bits: every slot sits at an offset
    that has a tag, holds at least one bit and ends inside the word, no
    two slots share a bit, and every argument has from 1 to 31 bits. *)
Definition laidOut (f : InsnFormat) : Prop :=
  knownSlots f ∧
  Forall (λ s, (0 < Width s)%N ∧ (Offset s + Width s ≤ 32)%N) (fmtSlots f) ∧
  slotsApart (fmtSlots f) ∧
  Forall (λ a, (0 < TotalWidth a < 32)%N) (Args f).

Global Instance laidOut_dec f : Decision (laidOut f).
Proof. unfold laidOut. apply _. Defined.


Definition ascii_is_digit (c : ascii) : bool :=
  let n := N_of_ascii c in ((48 <=? n) && (n <=? 57))%N.

(** The characters of the mnemonics of LoongArch: lower-case letters,
    digits, the dot and the underscore. *)
Definition mnemonicChar (c : ascii) : bool :=
  ascii_is_lower c || ascii_is_digit c || Ascii.eqb c "."
  || Ascii.eqb c "_".


(** The operand fits the argument, and is not negative where
    [geninsndata] passes it to a single slot as it is. *)
Definition operandFitsGo (a : Arg) (v : Z) : Prop :=
  operandFits a v ∧ (length (Slots a) = 1%nat → 0 ≤ v).

Global Instance operandFitsGo_dec a v : Decision (operandFitsGo a v).
Proof. unfold operandFitsGo. apply _. Defined.

(** A format for the encoders of [geninstformats]: every argument has
    one slot, every slot holds at least one bit and ends inside the word
    of 32 bits, and no two slots share a bit. *)
Definition singleSlots (f : InsnFormat) : Prop :=
  Forall (λ a, length (Slots a) = 1%nat) (Args f) ∧
  Forall (λ s, (0 < Width s)%N ∧ (Offset s + Width s ≤ 32)%N) (fmtSlots f) ∧
  slotsApart (fmtSlots f).

Global Instance singleSlots_dec f : Decision (singleSlots f).
Proof. unfold singleSlots. apply _. Defined.

(** ** One concrete environment, for running the generators on examples *)

Module Example.

(** The letter of a slot's offset, lower case; the five offsets of
    [slotCombinationForFmt] have one. *)
Definition slotLetter (o : N) : string :=
  if decide (o = 0%N) then "d"
  else if decide (o = 5%N) then "j"
  else if decide (o = 10%N) then "k"
  else if decide (o = 15%N) then "a"
  else if decide (o = 16%N) then "m"
  else "?" +:+ pretty o.

(** Modelled from the spec: [Arg.CanonicalRepr] of package [common],
    which is not among the sources; "a deterministic string derived from
    the ordered argument descriptors (kind letter/width)", in the shapes
    the sources' comments show: [D], [Fd], [Cd], [Sk12], [Sd5k16]. *)
Definition argRepr (a : Arg) : string :=
  let letters := foldr (λ s acc, slotLetter (Offset s) +:+ acc)
                       EmptyString (Slots a) in
  let sized := foldr (λ s acc, slotLetter (Offset s) +:+ pretty (Width s)
                                 +:+ acc)
                     EmptyString (Slots a) in
  match Kind a with
  | ArgKindIntReg => ToUpper letters
  | ArgKindFPReg => "F" +:+ letters
  | ArgKindFCCReg => "C" +:+ letters
  | ArgKindSignedImm => "S" +:+ sized
  | ArgKindUnsignedImm => "U" +:+ sized
  end.

(** Modelled from the spec: [InsnFormat.CanonicalRepr] of package
    [common]; the names of the arguments in order, [EMPTY] for none. *)
Definition fmtRepr (f : InsnFormat) : string :=
  match Args f with
  | [] => "EMPTY"
  | args => foldr (λ a acc, argRepr a +:+ acc) EmptyString args
  end.

Definition common : Common := {|
  Arg_CanonicalRepr := argRepr;
  Fmt_CanonicalRepr := fmtRepr;
  MustGetGitCommitHash := "0123456789abcdef0123456789abcdef01234567";
  format_Source := Ok;
  clang_format := Ok
|}.

(** One order of visiting a map: the order in which stdpp lists it. *)
Definition mapOrder : MapOrder := {|
  rangeMap := λ V m, map_to_list m;
  rangeMap_perm := λ V m, reflexivity (map_to_list m)
|}.

(** Another one: the reverse. *)
Definition mapOrderRev : MapOrder := {|
  rangeMap := λ V m, reverse (map_to_list m);
  rangeMap_perm := λ V m, reverse_Permutation (map_to_list m)
|}.

(** One sorting algorithm meeting what [sort.Slice] promises. *)
Definition notLess {A} (less : A → A → bool) : relation A :=
  λ x y, less y x = false.

Global Instance notLess_dec {A} (less : A → A → bool) :
  RelDecision (notLess less).
Proof. intros x y. unfold notLess. apply _. Defined.

Definition sortAlg : SortAlg.
Proof.
  refine {| sort_Slice := λ A less l, merge_sort (notLess less) l |}.
  - intros A less l. apply merge_sort_Permutation.
  - intros A less l _ Hasym.
    assert (Total (notLess less)) as Htotal.
    { intros x y. unfold notLess. destruct (less y x) eqn:E; [|by left].
      right. by apply Hasym. }
    apply (Sorted_merge_sort (notLess less)).
Defined.

(** The operands of LoongArch instructions used in the examples. *)
Definition D : Arg := mkArg ArgKindIntReg [mkSlot 0 5].
Definition J : Arg := mkArg ArgKindIntReg [mkSlot 5 5].
Definition K : Arg := mkArg ArgKindIntReg [mkSlot 10 5].
Definition Fd : Arg := mkArg ArgKindFPReg [mkSlot 0 5].
Definition Sk12 : Arg := mkArg ArgKindSignedImm [mkSlot 10 12].
Definition Uk12 : Arg := mkArg ArgKindUnsignedImm [mkSlot 10 12].
Definition Sd5k16 : Arg :=
  mkArg ArgKindSignedImm [mkSlot 0 5; mkSlot 10 16].

Definition DJK : InsnFormat := mkFormat [D; J; K].
Definition DJSk12 : InsnFormat := mkFormat [D; J; Sk12].
Definition DJUk12 : InsnFormat := mkFormat [D; J; Uk12].
Definition JSd5k16 : InsnFormat := mkFormat [J; Sd5k16].
Definition EMPTY : InsnFormat := mkFormat [].

Definition add_w : InsnDescription :=
  mkInsn 0x00100000 "add.w" DJK {["qemu"]}.
(** A second record under the mnemonic of [add_w]. *)
Definition add_w_again : InsnDescription :=
  mkInsn 0x00100001 "add.w" DJK {["qemu"]}.
Definition sub_w : InsnDescription :=
  mkInsn 0x00110000 "sub.w" DJK ∅.
Definition addi_w : InsnDescription :=
  mkInsn 0x02800000 "addi.w" DJSk12 {["qemu"]}.
Definition andi : InsnDescription :=
  mkInsn 0x03400000 "andi" DJUk12 {["qemu"]}.
Definition beqz : InsnDescription :=
  mkInsn 0x40000000 "beqz" JSd5k16 {["qemu"]}.
Definition dbar0 : InsnDescription :=
  mkInsn 0x38720000 "dbar0" EMPTY ∅.

End Example.

(** ** Operands for running the generated validators and encoders *)

Module ExampleInsn.

(** [regInt], [regFP] and [regFCC] of the assembler, on operands that
    are register numbers already. *)
Definition reg (c : GenInsnData.Conv) (v : Z) : Z := v.





End ExampleInsn.
(** * Proofs *)

(** ** Facts about slot combinations *)

Lemma string_app_cons c s1 s2 : String c s1 +:+ s2 = String c (s1 +:+ s2).
Proof. reflexivity. Qed.

Lemma string_app_nil_l s : EmptyString +:+ s = s.
Proof. reflexivity. Qed.

Lemma string_app_nil_r s : s +:+ EmptyString = s.
Proof.
  induction s as [|c s IH]; [done|]. by rewrite string_app_cons, IH.
Qed.

Lemma string_app_assoc s1 s2 s3 : (s1 +:+ s2) +:+ s3 = s1 +:+ (s2 +:+ s3).
Proof.
  induction s1 as [|c s1 IH]; [done|]. by rewrite !string_app_cons, IH.
Qed.

Lemma runes_of_string_app s1 s2 :
  runes_of_string (s1 +:+ s2) = runes_of_string s1 ++ runes_of_string s2.
Proof.
  induction s1 as [|c s1 IH]; [done|].
  rewrite string_app_cons. simpl. by rewrite IH.
Qed.

Lemma string_of_runes_of_string s : string_of_runes (runes_of_string s) = s.
Proof. induction s as [|c s IH]; simpl; [done|]. by rewrite IH. Qed.

Lemma runes_of_string_of_runes cs : runes_of_string (string_of_runes cs) = cs.
Proof. induction cs as [|c cs IH]; simpl; [done|]. by rewrite IH. Qed.

Local Ltac slot_cases :=
  repeat match goal with
  | |- context [decide (?s = ?k)] => destruct (decide (s = k)) as [->|?]
  end.

Lemma slotRune_Ok s c : slotRune s = Ok c ↔ (s, c) ∈ slotTags.
Proof.
  unfold slotRune, slotTags, slotD, slotJ, slotK, slotA, slotM.
  rewrite !elem_of_cons, elem_of_nil.
  slot_cases;
    (split;
     [intros [= <-]; auto 10
     |intros Hor; repeat destruct Hor as [Hor|Hor]; by simplify_eq]).
Qed.

Lemma slotRune_Panic s msg :
  slotRune s = Panic msg ↔
  (s ∉ knownOffsets) ∧ msg = "should never happen".
Proof.
  unfold slotRune, knownOffsets, slotTags, slotD, slotJ, slotK, slotA, slotM.
  simpl. rewrite !not_elem_of_cons.
  slot_cases; (split; [intros [= <-]|intros [Hn ->]]); try done;
    try (by repeat destruct Hn as [? Hn]).
  repeat split; auto. apply not_elem_of_nil.
Qed.

Lemma slotRune_known s : s ∈ knownOffsets → ∃ c, slotRune s = Ok c.
Proof.
  intros Hs. destruct (slotRune s) as [c|msg] eqn:E; [by eexists|].
  apply slotRune_Panic in E as [? _]. done.
Qed.

Lemma slotOffsetFromRune_slotRune s c :
  slotRune s = Ok c → slotOffsetFromRune c = Ok s.
Proof.
  rewrite slotRune_Ok. unfold slotTags. rewrite !elem_of_cons, elem_of_nil.
  intros HH. repeat destruct HH as [HH|HH]; try done;
    inversion HH; subst; reflexivity.
Qed.

(** The lower-case rune names the same offset. *)
Lemma slotOffsetFromRune_ToLower s c :
  slotRune s = Ok c → slotOffsetFromRune (ascii_ToLower c) = Ok s.
Proof.
  rewrite slotRune_Ok. unfold slotTags. rewrite !elem_of_cons, elem_of_nil.
  intros HH. repeat destruct HH as [HH|HH]; try done;
    inversion HH; subst; reflexivity.
Qed.

Lemma writeSlotRunes_Ok sb slots r :
  writeSlotRunes sb slots = Ok r ↔
  ∃ cs, Forall2 (λ s c, slotRune s = Ok c) slots cs ∧
        r = sb +:+ string_of_runes cs.
Proof.
  revert sb. induction slots as [|s slots IH]; intros sb; simpl.
  - split.
    + intros [= <-]. exists []. split; [constructor|].
      simpl. by rewrite string_app_nil_r.
    + intros (cs & Hcs & ->). inversion Hcs; subst. simpl.
      by rewrite string_app_nil_r.
  - destruct (slotRune s) as [c|msg] eqn:E; simpl.
    + rewrite IH. split.
      * intros (cs & Hcs & ->). exists (c :: cs). split; [by constructor|].
        simpl. unfold string_of_rune. by rewrite string_app_assoc.
      * intros (cs & Hcs & ->). inversion Hcs as [|? c' ? cs' Hc Hcs']; subst.
        assert (c' = c) as -> by congruence.
        exists cs'. split; [done|]. simpl. unfold string_of_rune.
        by rewrite string_app_assoc.
    + split; [done|]. intros (cs & Hcs & _).
      inversion Hcs; subst. congruence.
Qed.

Lemma writeSlotRunes_Panic sb slots msg :
  writeSlotRunes sb slots = Panic msg ↔
  (∃ s, s ∈ slots ∧ s ∉ knownOffsets) ∧ msg = "should never happen".
Proof.
  revert sb. induction slots as [|s slots IH]; intros sb; simpl.
  - split; [done|]. intros [(s & Hs & _) _]. by apply elem_of_nil in Hs.
  - destruct (slotRune s) as [c|m] eqn:E; simpl.
    + rewrite IH. split.
      * intros [(s' & Hs' & Hbad) ->]. split; [|done].
        exists s'. split; [by right|done].
      * intros [(s' & Hs' & Hbad) ->]. split; [|done].
        apply elem_of_cons in Hs' as [->|Hs']; [|by exists s'].
        exfalso. apply Hbad.
        apply slotRune_Ok in E. unfold knownOffsets.
        apply list_elem_of_fmap. by exists (s, c).
    + apply slotRune_Panic in E as [Hbad ->]. split.
      * intros [= <-]. split; [|done]. exists s. split; [by left|done].
      * by intros [_ ->].
Qed.

Global Instance Z_le_total_inst : Total Z.le.
Proof. intros x y. lia. Qed.

Lemma sort_Ints_sorted l : Sorted Z.le (sort_Ints l).
Proof. apply (Sorted_merge_sort Z.le). Qed.

Lemma sort_Ints_perm l : sort_Ints l ≡ₚ l.
Proof. apply (merge_sort_Permutation Z.le). Qed.

Lemma sort_Strings_sorted l : Sorted String.le (sort_Strings l).
Proof. apply (Sorted_merge_sort String.le). Qed.

Lemma sort_Strings_perm l : sort_Strings l ≡ₚ l.
Proof. apply (merge_sort_Permutation String.le). Qed.

(** Ascending arrangements are unique, whatever order the input had. *)
Lemma sort_Strings_Permutation l1 l2 :
  l1 ≡ₚ l2 → sort_Strings l1 = sort_Strings l2.
Proof.
  intros Hp. apply (Sorted_unique String.le).
  - apply sort_Strings_sorted.
  - apply sort_Strings_sorted.
  - by rewrite !sort_Strings_perm.
Qed.

Lemma slotCombinationForFmt_Ok f sc :
  slotCombinationForFmt f = Ok sc ↔
  Forall2 (λ s c, slotRune s = Ok c)
    (sort_Ints (fmtSlotOffsets f)) (runes_of_string sc).
Proof.
  unfold slotCombinationForFmt. rewrite writeSlotRunes_Ok. split.
  - intros (cs & Hcs & ->).
    by rewrite string_app_nil_l, runes_of_string_of_runes.
  - intros Hcs. eexists. split; [done|].
    by rewrite string_app_nil_l, string_of_runes_of_string.
Qed.

Lemma slotCombinationForFmt_Panic f msg :
  slotCombinationForFmt f = Panic msg ↔
  (∃ z, z ∈ fmtSlotOffsets f ∧ z ∉ knownOffsets) ∧
  msg = "should never happen".
Proof.
  unfold slotCombinationForFmt. rewrite writeSlotRunes_Panic.
  split; intros [(z & Hz & Hbad) ->]; (split; [|done]); exists z;
    (split; [|done]).
  - by rewrite <-(sort_Ints_perm (fmtSlotOffsets f)).
  - by rewrite (sort_Ints_perm (fmtSlotOffsets f)).
Qed.

Lemma slotCombinationForFmt_known f :
  Forall (λ z, z ∈ knownOffsets) (fmtSlotOffsets f) →
  is_Ok (slotCombinationForFmt f).
Proof.
  intros Hall. destruct (slotCombinationForFmt f) as [sc|msg] eqn:E.
  - by exists sc.
  - apply slotCombinationForFmt_Panic in E as [(z & Hz & Hbad) _].
    rewrite Forall_forall in Hall. by apply Hall in Hz.
Qed.

Lemma fmtSlotOffsets_nil f : Args f = [] → fmtSlotOffsets f = [].
Proof. unfold fmtSlotOffsets. by intros ->. Qed.

Section slot_combinations_facts.
Context {ord : MapOrder}.

Lemma gatherSlotCombinationsSet_Ok set fmts set' :
  gatherSlotCombinationsSet set fmts = Ok set' →
  ∀ sc, is_Some (set' !! sc) ↔
    is_Some (set !! sc) ∨
    ∃ f, f ∈ fmts ∧ Args f ≠ [] ∧ slotCombinationForFmt f = Ok sc.
Proof.
  revert set. induction fmts as [|f fmts IH]; intros set; simpl.
  - intros [= <-] sc. split; [by left|].
    intros [?|(f & Hf & _)]; [done|]. by apply elem_of_nil in Hf.
  - case_decide as Hlen.
    + intros Hg sc. rewrite (IH _ Hg). split.
      * intros [?|(f' & Hf' & ?)]; [by left|right].
        exists f'. split; [by right|done].
      * intros [?|(f' & Hf' & Hne & ?)]; [by left|].
        apply elem_of_cons in Hf' as [->|Hf'].
        -- destruct (Args f); [done|]. discriminate Hlen.
        -- right. by exists f'.
    + destruct (slotCombinationForFmt f) as [sc0|msg] eqn:E; [|done].
      simpl. intros Hg sc. rewrite (IH _ Hg).
      rewrite lookup_insert_is_Some. split.
      * intros [[->|[_ ?]]|(f' & Hf' & ?)]; [right|by left|right].
        -- exists f. split; [by left|]. split; [|done].
           intros Hnil. by rewrite Hnil in Hlen.
        -- exists f'. split; [by right|done].
      * intros [?|(f' & Hf' & Hne & Hsc)].
        -- left. destruct (decide (sc0 = sc)); [by left|by right].
        -- apply elem_of_cons in Hf' as [->|Hf'].
           ++ left. left. congruence.
           ++ right. by exists f'.
Qed.

Lemma gatherSlotCombinationsSet_Panic set fmts msg :
  gatherSlotCombinationsSet set fmts = Panic msg ↔
  (∃ f z, f ∈ fmts ∧ z ∈ fmtSlotOffsets f ∧ z ∉ knownOffsets) ∧
  msg = "should never happen".
Proof.
  revert set. induction fmts as [|f fmts IH]; intros set; simpl.
  - split; [done|]. intros [(f & z & Hf & _) _]. by apply elem_of_nil in Hf.
  - case_decide as Hlen.
    + rewrite IH. split; intros [(f' & z & Hf' & Hz & Hbad) ->];
        (split; [|done]).
      * exists f', z. split; [by right|done].
      * apply elem_of_cons in Hf' as [->|Hf']; [|by exists f', z].
        rewrite fmtSlotOffsets_nil in Hz; [by apply elem_of_nil in Hz|].
        by destruct (Args f).
    + destruct (slotCombinationForFmt f) as [sc0|m] eqn:E; simpl.
      * rewrite IH. split; intros [(f' & z & Hf' & Hz & Hbad) ->];
          (split; [|done]).
        -- exists f', z. split; [by right|done].
        -- apply elem_of_cons in Hf' as [->|Hf']; [|by exists f', z].
           destruct (slotCombinationForFmt_known f) as [sc E'].
           ++ apply Forall_forall. intros z' Hz'.
              destruct (decide (z' ∈ knownOffsets)) as [|Hn]; [done|].
              assert (slotCombinationForFmt f = Panic "should never happen")
                as E' by (apply slotCombinationForFmt_Panic; eauto).
              congruence.
           ++ exfalso.
              assert (slotCombinationForFmt f = Panic "should never happen")
                as E'' by (apply slotCombinationForFmt_Panic; eauto).
              congruence.
      * apply slotCombinationForFmt_Panic in E as [(z & Hz & Hbad) ->].
        split.
        -- intros [= <-]. split; [|done]. exists f, z. split; [by left|done].
        -- by intros [_ ->].
Qed.

Lemma gatherDistinctSlotCombinations_Ok fmts scs :
  gatherDistinctSlotCombinations fmts = Ok scs →
  Sorted String.le scs ∧ NoDup scs ∧
  ∀ sc, sc ∈ scs ↔
    ∃ f, f ∈ fmts ∧ Args f ≠ [] ∧ slotCombinationForFmt f = Ok sc.
Proof.
  unfold gatherDistinctSlotCombinations.
  destruct (gatherSlotCombinationsSet ∅ fmts) as [set|msg] eqn:E; [|done].
  simpl. intros [= <-]. split; [apply sort_Strings_sorted|].
  assert ((rangeMap set).*1 ≡ₚ (map_to_list set).*1) as Hperm
    by (by rewrite rangeMap_perm).
  split.
  - rewrite sort_Strings_perm, Hperm. apply NoDup_fst_map_to_list.
  - intros sc. rewrite sort_Strings_perm, Hperm.
    rewrite list_elem_of_fmap.
    pose proof (gatherSlotCombinationsSet_Ok _ _ _ E sc) as Hset.
    rewrite lookup_empty in Hset. split.
    + intros ([k []] & -> & Hin). apply elem_of_map_to_list in Hin.
      simpl. destruct Hset as [Hset _].
      destruct Hset as [[? ?]|?]; [by eexists|done|done].
    + intros Hf. destruct Hset as [_ Hset].
      destruct Hset as [[] Hl]; [by right|].
      exists (sc, ()). split; [done|]. by apply elem_of_map_to_list.
Qed.

Lemma gatherDistinctSlotCombinations_Panic fmts msg :
  gatherDistinctSlotCombinations fmts = Panic msg ↔
  (∃ f z, f ∈ fmts ∧ z ∈ fmtSlotOffsets f ∧ z ∉ knownOffsets) ∧
  msg = "should never happen".
Proof.
  unfold gatherDistinctSlotCombinations.
  rewrite <-(gatherSlotCombinationsSet_Panic ∅).
  destruct (gatherSlotCombinationsSet ∅ fmts); simpl;
    [split; intros; discriminate | split; intros [= ->]; reflexivity].
Qed.
End slot_combinations_facts.

(** ** Facts about the format catalog *)

Section formats_facts.
Context {cmn : Common} {ord : MapOrder}.

Lemma firstWith_cons name d descs :
  firstWith name (d :: descs) =
  if decide (sigOf d = name) then Some d else firstWith name descs.
Proof.
  unfold firstWith. cbn. case_decide; [done|].
  by destruct (list_find _ descs) as [[]|].
Qed.

Lemma firstWith_Some name descs d :
  firstWith name descs = Some d ↔
  ∃ i, descs !! i = Some d ∧ sigOf d = name ∧
       ∀ j d', descs !! j = Some d' → (j < i)%nat → sigOf d' ≠ name.
Proof.
  unfold firstWith. split.
  - intros ([i d'] & Hf & ->)%fmap_Some. simpl.
    apply list_find_Some in Hf. by exists i.
  - intros (i & Hi). apply fmap_Some. exists (i, d). split; [|done].
    by apply list_find_Some.
Qed.

Lemma firstWith_None name descs :
  firstWith name descs = None ↔ name ∉ sigOf <$> descs.
Proof.
  unfold firstWith. rewrite fmap_None, list_find_None, Forall_forall.
  rewrite list_elem_of_fmap. split.
  - intros Hall (d & -> & Hd). by apply (Hall d).
  - intros Hn d Hd Heq. apply Hn. by exists d.
Qed.

Lemma gatherFormatsStep_lookup m d name :
  gatherFormatsStep m d !! name =
  match m !! name with
  | Some f => Some f
  | None => if decide (sigOf d = name) then Some (Format d) else None
  end.
Proof.
  unfold gatherFormatsStep, sigOf.
  destruct (m !! Fmt_CanonicalRepr (Format d)) as [f0|] eqn:E.
  - destruct (m !! name) eqn:E'; [done|].
    case_decide; [congruence|done].
  - rewrite lookup_insert. case_decide as Hd; subst.
    + by rewrite E.
    + by destruct (m !! name).
Qed.

Lemma foldl_gatherFormatsStep_lookup m descs name :
  foldl gatherFormatsStep m descs !! name =
  match m !! name with
  | Some f => Some f
  | None => Format <$> firstWith name descs
  end.
Proof.
  revert m. induction descs as [|d descs IH]; intros m; simpl.
  - by destruct (m !! name).
  - rewrite IH, gatherFormatsStep_lookup, firstWith_cons.
    destruct (m !! name); [done|]. by case_decide.
Qed.

(** First occurrence wins: under each signature the catalog holds the
    format of the first record that has it. *)
Lemma gatherFormatsSet_lookup descs name :
  gatherFormatsSet descs !! name = Format <$> firstWith name descs.
Proof.
  unfold gatherFormatsSet.
  by rewrite foldl_gatherFormatsStep_lookup, lookup_empty.
Qed.

Lemma gatherFormatsSet_key descs name f :
  gatherFormatsSet descs !! name = Some f → Fmt_CanonicalRepr f = name.
Proof.
  rewrite gatherFormatsSet_lookup.
  intros (d & Hd & ->)%fmap_Some.
  apply firstWith_Some in Hd as (i & _ & Hsig & _). done.
Qed.

Lemma gatherFormatsSet_dom descs :
  dom (gatherFormatsSet descs) = list_to_set (sigOf <$> descs).
Proof.
  apply set_eq. intros name.
  rewrite elem_of_dom, elem_of_list_to_set, gatherFormatsSet_lookup.
  rewrite fmap_is_Some.
  destruct (firstWith name descs) as [d|] eqn:E.
  - split; [intros _|by eauto].
    apply firstWith_Some in E as (i & Hi & <- & _).
    apply list_elem_of_fmap. exists d. split; [done|].
    by eapply list_elem_of_lookup_2.
  - apply firstWith_None in E. split; [by intros []|done].
Qed.

(** The catalog has one entry per distinct signature. *)
Lemma gatherFormatsSet_size descs :
  size (gatherFormatsSet descs) = length (remove_dups (sigOf <$> descs)).
Proof.
  rewrite <-size_dom, gatherFormatsSet_dom.
  rewrite <-(size_list_to_set (C:=gset string) (remove_dups _))
    by apply NoDup_remove_dups.
  f_equal. apply set_eq. intros name.
  by rewrite !elem_of_list_to_set, elem_of_remove_dups.
Qed.

Lemma gatherFormats_length descs :
  length (gatherFormats descs) = length (remove_dups (sigOf <$> descs)).
Proof.
  unfold gatherFormats.
  rewrite length_fmap, (rangeMap_perm _ (gatherFormatsSet descs)).
  by rewrite length_map_to_list, gatherFormatsSet_size.
Qed.

Lemma gatherFormats_elem_of descs f :
  f ∈ gatherFormats descs ↔
  ∃ d, firstWith (Fmt_CanonicalRepr f) descs = Some d ∧ Format d = f.
Proof.
  unfold gatherFormats.
  rewrite (rangeMap_perm _ (gatherFormatsSet descs)), list_elem_of_fmap.
  split.
  - intros ([name f'] & -> & Hin). simpl.
    apply elem_of_map_to_list in Hin.
    pose proof (gatherFormatsSet_key _ _ _ Hin) as Hk.
    rewrite gatherFormatsSet_lookup in Hin.
    apply fmap_Some in Hin as (d & Hd & ->). exists d. by rewrite Hk.
  - intros (d & Hd & <-). exists (sigOf d, Format d). split; [done|].
    apply elem_of_map_to_list. rewrite gatherFormatsSet_lookup.
    unfold sigOf. by rewrite Hd.
Qed.

(** The signatures of the catalog, in the order of the catalog, are
    the keys of the map in the order visited. *)
Lemma gatherFormats_sigs descs :
  Fmt_CanonicalRepr <$> gatherFormats descs =
  (rangeMap (gatherFormatsSet descs)).*1.
Proof.
  unfold gatherFormats.
  assert (Forall (λ kv, Fmt_CanonicalRepr kv.2 = kv.1)
                 (rangeMap (gatherFormatsSet descs))) as Hall.
  { rewrite (rangeMap_perm _ (gatherFormatsSet descs)).
    apply Forall_forall. intros [k v] Hin.
    apply elem_of_map_to_list in Hin.
    by apply gatherFormatsSet_key in Hin. }
  revert Hall. generalize (rangeMap (gatherFormatsSet descs)).
  intros l Hall.
  induction Hall as [|kv l Hkv _ IH]; [done|].
  rewrite !fmap_cons, Hkv. f_equal. exact IH.
Qed.

Lemma gatherFormats_NoDup_sigs descs :
  NoDup (Fmt_CanonicalRepr <$> gatherFormats descs).
Proof.
  rewrite gatherFormats_sigs, (rangeMap_perm _ (gatherFormatsSet descs)).
  apply NoDup_fst_map_to_list.
Qed.

Lemma gatherFormats_sigs_elem_of descs name :
  name ∈ Fmt_CanonicalRepr <$> gatherFormats descs ↔
  name ∈ sigOf <$> descs.
Proof.
  rewrite gatherFormats_sigs, (rangeMap_perm _ (gatherFormatsSet descs)).
  rewrite <-(elem_of_list_to_set (C:=gset string) name (sigOf <$> descs)).
  rewrite <-gatherFormatsSet_dom, elem_of_dom.
  rewrite list_elem_of_fmap. split.
  - intros ([k v] & -> & Hin). apply elem_of_map_to_list in Hin. by eexists.
  - intros [v Hv]. exists (name, v). split; [done|].
    by apply elem_of_map_to_list.
Qed.

(** Deduplication is idempotent: a record whose signature is already
    present changes nothing. *)
Lemma gatherFormatsStep_idemp m d :
  gatherFormatsStep (gatherFormatsStep m d) d = gatherFormatsStep m d.
Proof.
  unfold gatherFormatsStep at 1.
  rewrite gatherFormatsStep_lookup.
  destruct (m !! Fmt_CanonicalRepr (Format d)); [done|].
  by rewrite decide_True.
Qed.

Lemma gatherFormatsSet_app_again descs :
  gatherFormatsSet (descs ++ descs) = gatherFormatsSet descs.
Proof.
  apply map_eq. intros name. unfold gatherFormatsSet at 1.
  rewrite foldl_app. fold (gatherFormatsSet descs).
  rewrite foldl_gatherFormatsStep_lookup, gatherFormatsSet_lookup.
  by destruct (firstWith name descs).
Qed.
End formats_facts.

(** Two runs differ in the order of the catalog only. *)
Lemma gatherFormats_MapOrder {cmn : Common} (O1 O2 : MapOrder) descs :
  gatherFormats (ord:=O1) descs ≡ₚ gatherFormats (ord:=O2) descs.
Proof.
  unfold gatherFormats.
  by rewrite (@rangeMap_perm O1), (@rangeMap_perm O2).
Qed.

(** ** Sorting erases the order in which a map was visited *)

Lemma String_ltb_false a b : String.ltb a b = false ↔ String.le b a.
Proof.
  unfold String.le, String.leb, String.ltb.
  rewrite (String.compare_antisym a b).
  destruct (String.compare b a); simpl; split; intros; done.
Qed.

Lemma String_ltb_true_asym a b :
  String.ltb a b = true → String.ltb b a = false.
Proof.
  unfold String.ltb. rewrite (String.compare_antisym a b).
  by destruct (String.compare b a).
Qed.

(** Two lists with the same elements and the same keys in the same
    places are the same list, when no key occurs twice. *)
Lemma fmap_eq_Permutation_NoDup {A B} (f : A → B) (l1 l2 : list A) :
  l1 ≡ₚ l2 → f <$> l1 = f <$> l2 → NoDup (f <$> l1) → l1 = l2.
Proof.
  revert l2. induction l1 as [|x l1 IH]; intros l2 Hp Heq Hnd.
  - by apply Permutation_nil_l in Hp.
  - destruct l2 as [|y l2]; [by apply Permutation_nil_r in Hp|].
    rewrite !fmap_cons in Heq. injection Heq as Hxy Htl.
    rewrite fmap_cons in Hnd. apply NoDup_cons in Hnd as [Hx Hnd].
    assert (y = x) as ->.
    { assert (y ∈ x :: l1) as Hy by (rewrite Hp; left).
      apply elem_of_cons in Hy as [->|Hy]; [done|].
      exfalso. apply Hx. rewrite Hxy. apply list_elem_of_fmap. by exists y. }
    f_equal. apply IH; [|done|done].
    by apply (Permutation_cons_inv (a:=x)).
Qed.

Section sorting_facts.
Context {cmn : Common} {srt : SortAlg}.

Lemma sortFormats_sorted fmts :
  Sorted String.le (Fmt_CanonicalRepr <$> sort_Slice lessFormat fmts).
Proof.
  apply (Sorted_fmap _ (λ x y, lessFormat y x = false)).
  - intros x y. unfold lessFormat. by rewrite String_ltb_false.
  - apply sort_Slice_sorted; unfold lessFormat.
    + intros x y z. rewrite !String_ltb_false. intros ??. by etrans.
    + intros x y. apply String_ltb_true_asym.
Qed.

(** Formats with pairwise distinct signatures have one sorted
    arrangement. *)
Lemma sortFormats_Permutation fmts1 fmts2 :
  fmts1 ≡ₚ fmts2 → NoDup (Fmt_CanonicalRepr <$> fmts1) →
  sort_Slice lessFormat fmts1 = sort_Slice lessFormat fmts2.
Proof.
  intros Hp Hnd.
  assert (sort_Slice lessFormat fmts1 ≡ₚ sort_Slice lessFormat fmts2) as Hps
    by (by rewrite !sort_Slice_perm).
  apply (fmap_eq_Permutation_NoDup Fmt_CanonicalRepr); [done| |].
  - apply (Sorted_unique String.le); [apply sortFormats_sorted..|].
    by rewrite Hps.
  - by rewrite sort_Slice_perm.
Qed.
End sorting_facts.

(** The slot combinations do not depend on the order of the formats nor
    on the order in which the set is visited. *)
Lemma gatherDistinctSlotCombinations_Permutation (O1 O2 : MapOrder)
    fmts1 fmts2 :
  fmts1 ≡ₚ fmts2 →
  gatherDistinctSlotCombinations (ord:=O1) fmts1 =
  gatherDistinctSlotCombinations (ord:=O2) fmts2.
Proof.
  intros Hp.
  destruct (gatherDistinctSlotCombinations (ord:=O1) fmts1)
    as [scs1|msg1] eqn:E1;
  destruct (gatherDistinctSlotCombinations (ord:=O2) fmts2)
    as [scs2|msg2] eqn:E2.
  - apply gatherDistinctSlotCombinations_Ok in E1 as (Hs1 & Hn1 & Hin1).
    apply gatherDistinctSlotCombinations_Ok in E2 as (Hs2 & Hn2 & Hin2).
    f_equal. apply (Sorted_unique String.le); [done..|].
    apply NoDup_Permutation; [done..|].
    intros sc. rewrite Hin1, Hin2.
    split; intros (f & Hf & ?); exists f; (split; [|done]).
    + by rewrite <-Hp.
    + by rewrite Hp.
  - exfalso.
    apply gatherDistinctSlotCombinations_Panic in E2
      as [(f & z & Hf & Hz & Hbad) _].
    assert (gatherDistinctSlotCombinations (ord:=O1) fmts1
            = Panic "should never happen") as E.
    { apply gatherDistinctSlotCombinations_Panic. split; [|done].
      exists f, z. by rewrite Hp. }
    congruence.
  - exfalso.
    apply gatherDistinctSlotCombinations_Panic in E1
      as [(f & z & Hf & Hz & Hbad) _].
    assert (gatherDistinctSlotCombinations (ord:=O2) fmts2
            = Panic "should never happen") as E.
    { apply gatherDistinctSlotCombinations_Panic. split; [|done].
      exists f, z. by rewrite <-Hp. }
    congruence.
  - apply gatherDistinctSlotCombinations_Panic in E1 as [_ ->].
    apply gatherDistinctSlotCombinations_Panic in E2 as [_ ->]. done.
Qed.

(** ** Facts about the selection of records for QEMU *)

Section filter_facts.
Context {cmn : Common} {ord : MapOrder} {srt : SortAlg}.


End filter_facts.

(** ** Facts about the runs as a whole *)

Lemma int_of_uint_small (u : N) : (u < 2 ^ 63)%N → int_of_uint u = Z.of_N u.
Proof.
  intros Hu. unfold int_of_uint, wrap_int.
  assert (0 ≤ Z.of_N u < 2 ^ 63) as Hz.
  { split; [lia|]. change (2 ^ 63) with (Z.of_N (2 ^ 63)). lia. }
  rewrite Z.mod_small; lia.
Qed.

Lemma elem_of_fmtSlotOffsets f z :
  z ∈ fmtSlotOffsets f ↔
  ∃ a s, a ∈ Args f ∧ s ∈ Slots a ∧ z = int_of_uint (Offset s).
Proof.
  unfold fmtSlotOffsets. rewrite list_elem_of_bind. split.
  - intros (a & Hz & Ha). apply list_elem_of_bind in Hz as (s & Hz & Hs).
    apply list_elem_of_singleton in Hz. by exists a, s.
  - intros (a & s & Ha & Hs & ->). exists a. split; [|done].
    apply list_elem_of_bind. exists s. split; [|done].
    by apply list_elem_of_singleton.
Qed.

Section main_facts.
Context {cmn : Common} {srt : SortAlg}.

(** A run of [geninsndata] that cannot derive the slot combinations
    panics. *)
Lemma GenInsnData_main_Panic {ord : MapOrder} descs msg :
  gatherDistinctSlotCombinations (gatherFormats descs) = Panic msg →
  GenInsnData.main descs = Panic msg.
Proof. unfold GenInsnData.main. by intros ->. Qed.

Lemma GenQemuTcgDefs_main_Panic {ord : MapOrder} descs msg :
  gatherDistinctSlotCombinations
    (gatherFormats (GenQemuTcgDefs.filterUnusedInsns descs)) = Panic msg →
  GenQemuTcgDefs.main descs = Panic msg.
Proof. unfold GenQemuTcgDefs.main. by intros ->. Qed.

Lemma sortFormats_MapOrder (O1 O2 : MapOrder) descs :
  sort_Slice lessFormat (gatherFormats (ord:=O1) descs)
  = sort_Slice lessFormat (gatherFormats (ord:=O2) descs).
Proof.
  apply sortFormats_Permutation.
  - apply gatherFormats_MapOrder.
  - apply gatherFormats_NoDup_sigs.
Qed.

Lemma slotCombinations_MapOrder (O1 O2 : MapOrder) descs :
  gatherDistinctSlotCombinations (ord:=O1) (gatherFormats (ord:=O1) descs)
  = gatherDistinctSlotCombinations (ord:=O2) (gatherFormats (ord:=O2) descs).
Proof.
  apply gatherDistinctSlotCombinations_Permutation, gatherFormats_MapOrder.
Qed.

Lemma GenInsnData_main_MapOrder (O1 O2 : MapOrder) descs :
  GenInsnData.main (ord:=O1) descs = GenInsnData.main (ord:=O2) descs.
Proof.
  unfold GenInsnData.main.
  by rewrite (slotCombinations_MapOrder O1 O2), (sortFormats_MapOrder O1 O2).
Qed.

Lemma GenInstFormats_main_MapOrder (O1 O2 : MapOrder) descs :
  GenInstFormats.main (ord:=O1) descs = GenInstFormats.main (ord:=O2) descs.
Proof.
  unfold GenInstFormats.main. by rewrite (sortFormats_MapOrder O1 O2).
Qed.

Lemma GenQemuTcgDefs_main_MapOrder (O1 O2 : MapOrder) descs :
  GenQemuTcgDefs.main (ord:=O1) descs = GenQemuTcgDefs.main (ord:=O2) descs.
Proof.
  unfold GenQemuTcgDefs.main.
  by rewrite (slotCombinations_MapOrder O1 O2), (sortFormats_MapOrder O1 O2).
Qed.

End main_facts.

(** ** Facts about the bounds written into the assertions *)

Lemma wrap_int_small z : - 2 ^ 63 ≤ z < 2 ^ 63 → wrap_int z = z.
Proof. intros Hz. unfold wrap_int. rewrite Z.mod_small; lia. Qed.

Lemma wrap_uint_small z : 0 ≤ z < 2 ^ 64 → wrap_uint z = z.
Proof. intros Hz. unfold wrap_uint. by rewrite Z.mod_small. Qed.




Lemma pow2_lt_63 w : 0 ≤ w < 63 → 0 < 2 ^ w < 2 ^ 63.
Proof.
  intros Hw. split; [apply Z.pow_pos_nonneg; lia|].
  apply Z.pow_lt_mono_r; lia.
Qed.

Lemma int_shl1_small w : 0 ≤ w < 63 → int_shl1 w = 2 ^ w.
Proof.
  intros Hw. unfold int_shl1. rewrite decide_True by lia.
  rewrite Z.shiftl_1_l. apply wrap_int_small.
  pose proof (pow2_lt_63 w Hw). lia.
Qed.

(** [(1 << w) - 1] *)
Lemma mask_small w : 0 ≤ w < 63 → wrap_int (int_shl1 w - 1) = 2 ^ w - 1.
Proof.
  intros Hw. rewrite int_shl1_small by done.
  apply wrap_int_small. pose proof (pow2_lt_63 w Hw). lia.
Qed.

Section bounds_facts.
Context {cmn : Common}.




End bounds_facts.

(** ** Facts about the generated validators *)

Section validator_facts.
Context {E : Type} (want : wantFn → Z → option N → option E)
        (env : string → Z).





End validator_facts.

Section validator_linked.
Context {E : Type} (want : wantFn → Z → option N → option E).


End validator_linked.

Section validator_structure.
Context {cmn : Common}.





Lemma fieldNamesFrom_length immIdx args names :
  GenInsnData.fieldNamesFrom immIdx args = Ok names →
  length names = length args.
Proof.
  revert immIdx names. induction args as [|a args IH]; intros immIdx names.
  - by intros [= <-].
  - simpl. destruct (IsImm (Kind a)).
    + destruct (GenInsnData.fieldNamesFrom (immIdx + 1) args) as [ns|] eqn:E;
        [|done].
      simpl. intros [= <-]. simpl. f_equal. by eapply IH.
    + destruct (GenInsnData.insnFieldNameForRegArg a) as [n|]; [|done].
      simpl.
      destruct (GenInsnData.fieldNamesFrom immIdx args) as [ns|] eqn:E;
        [|done].
      simpl. intros [= <-]. simpl. f_equal. by eapply IH.
Qed.



Lemma insnFieldNameForRegArg_known a :
  regFieldKnown a → IsImm (Kind a) = false →
  is_Ok (GenInsnData.insnFieldNameForRegArg a).
Proof.
  intros [Himm|(s & rest & Hs & Ho)] Hk; [congruence|].
  unfold GenInsnData.insnFieldNameForRegArg, slotD, slotJ, slotK, slotA.
  rewrite Hs. rewrite !elem_of_cons, elem_of_nil in Ho.
  repeat case_decide; try (by eexists). lia.
Qed.

Lemma fieldNamesFrom_known immIdx args :
  Forall regFieldKnown args →
  is_Ok (GenInsnData.fieldNamesFrom immIdx args).
Proof.
  intros Hall. revert immIdx.
  induction Hall as [|a args Ha _ IH]; intros immIdx; [by eexists|].
  simpl. destruct (IsImm (Kind a)) eqn:Hk.
  - destruct (IH (immIdx + 1)) as [ns ->]. by eexists.
  - destruct (insnFieldNameForRegArg_known a Ha Hk) as [n ->].
    destruct (IH immIdx) as [ns ->]. by eexists.
Qed.

End validator_structure.

(** ** Facts about the encoding table *)

Lemma GenInsnData_emit_foldl {A} (g : A → string) ectx l :
  GenInsnData.buf (foldl (λ ectx x, GenInsnData.emit ectx (g x)) ectx l)
  = GenInsnData.buf ectx +:+ concat_strings (g <$> l).
Proof.
  revert ectx. induction l as [|x l IH]; intros ectx; simpl.
  - by rewrite string_app_nil_r.
  - rewrite IH. simpl. by rewrite string_app_assoc.
Qed.

Lemma GenInstFormats_emit_foldl {A} (g : A → string) ectx l :
  GenInstFormats.buf (foldl (λ ectx x, GenInstFormats.emit ectx (g x)) ectx l)
  = GenInstFormats.buf ectx +:+ concat_strings (g <$> l).
Proof.
  revert ectx. induction l as [|x l IH]; intros ectx; simpl.
  - by rewrite string_app_nil_r.
  - rewrite IH. simpl. by rewrite string_app_assoc.
Qed.

Section table_facts.
Context {cmn : Common}.

Lemma GenInsnData_emitInsnEncodings_buf ectx descs :
  GenInsnData.buf (GenInsnData.emitInsnEncodings ectx descs)
  = GenInsnData.buf ectx +:+ tableHeader +:+
    concat_strings (GenInsnData.encodingLine <$> descs) +:+ "}" +:+ nl.
Proof.
  unfold GenInsnData.emitInsnEncodings. cbv zeta.
  unfold GenInsnData.emit at 1. simpl GenInsnData.buf.
  rewrite (GenInsnData_emit_foldl GenInsnData.encodingLine).
  simpl GenInsnData.buf. unfold tableHeader.
  by rewrite !string_app_assoc.
Qed.

Lemma GenInstFormats_emitInsnEncodings_buf ectx descs :
  GenInstFormats.buf (GenInstFormats.emitInsnEncodings ectx descs)
  = GenInstFormats.buf ectx +:+ tableHeader +:+
    concat_strings (GenInstFormats.encodingLine <$> descs) +:+ "}" +:+ nl.
Proof.
  unfold GenInstFormats.emitInsnEncodings. cbv zeta.
  unfold GenInstFormats.emit at 1. simpl GenInstFormats.buf.
  rewrite (GenInstFormats_emit_foldl GenInstFormats.encodingLine).
  simpl GenInstFormats.buf. unfold tableHeader.
  by rewrite !string_app_assoc.
Qed.
End table_facts.

(** ** Facts about fragments of operands *)

Lemma land_mask_range x w :
  0 ≤ w → 0 ≤ Z.land x (2 ^ w - 1) < 2 ^ w.
Proof.
  intros Hw. replace (2 ^ w - 1) with (Z.ones w)
    by (rewrite Z.ones_equiv; lia).
  rewrite Z.land_ones by done. apply Z.mod_pos_bound.
  apply Z.pow_pos_nonneg; lia.
Qed.

(** Splitting off the five bits above the low sixteen and putting them
    back is truncation to twenty-one bits. *)
Lemma recombine_5_16 v :
  Z.lor (Z.shiftl (Z.land (Z.shiftr v 16) 31) 16) (Z.land v 65535)
  = Z.land v 2097151.
Proof.
  change 31 with (Z.ones 5). change 65535 with (Z.ones 16).
  change 2097151 with (Z.ones 21).
  apply Z.bits_inj'. intros n Hn.
  rewrite Z.lor_spec, !Z.land_spec, !Z.testbit_ones_nonneg by lia.
  destruct (decide (n < 16)) as [Hlt|Hge].
  - rewrite Z.shiftl_spec_low by lia.
    rewrite (proj2 (Z.ltb_lt n 16)), (proj2 (Z.ltb_lt n 21)) by lia.
    done.
  - rewrite Z.shiftl_spec by lia.
    rewrite Z.land_spec, Z.shiftr_spec, Z.testbit_ones_nonneg by lia.
    replace (n - 16 + 16) with n by lia.
    rewrite (proj2 (Z.ltb_ge n 16)) by lia.
    rewrite andb_false_r, orb_false_r. f_equal.
    destruct (decide (n < 21)).
    + rewrite (proj2 (Z.ltb_lt _ _)), (proj2 (Z.ltb_lt _ _)) by lia. done.
    + rewrite (proj2 (Z.ltb_ge _ _)), (proj2 (Z.ltb_ge _ _)) by lia. done.
Qed.

(** The two fragments of an argument made of a 5-bit slot followed by a
    16-bit slot, as the QEMU generator and [geninsndata] write them. *)
Lemma qemuFragment_5_16 k oh ol v :
  oh ≠ ol →
  qemuFragment (mkArg k [mkSlot oh 5; mkSlot ol 16]) oh v
    = Some (Z.land (Z.shiftr v 16) 31) ∧
  qemuFragment (mkArg k [mkSlot oh 5; mkSlot ol 16]) ol v
    = Some (Z.land v 65535).
Proof.
  intros Hne. unfold qemuFragment, GenQemuTcgDefs.argSlotExprs. simpl.
  rewrite lookup_insert_ne, lookup_insert_eq by done.
  rewrite lookup_insert_eq. done.
Qed.

Lemma goFragment_5_16 k oh ol v :
  oh ≠ ol →
  goFragment (mkArg k [mkSlot oh 5; mkSlot ol 16]) oh v
    = Some (Z.land (Z.shiftr v 16) 31) ∧
  goFragment (mkArg k [mkSlot oh 5; mkSlot ol 16]) ol v
    = Some (Z.land v 65535).
Proof.
  intros Hne. unfold goFragment, GenInsnData.argSlotExprs. simpl.
  rewrite lookup_insert_ne, lookup_insert_eq by done.
  rewrite lookup_insert_eq. done.
Qed.

(** *** Signed immediates: what each generator passes on

    The QEMU generator masks every fragment of a signed immediate to the
    width of its slot; [geninsndata] passes a single-slot immediate on as
    it is. *)

Lemma qemu_multiSlotExprs_lookup name r slots m o e env :
  Forall (λ s, (Width s < 63)%N) slots →
  GenQemuTcgDefs.multiSlotExprs name r slots m !! o = Some e →
  m !! o = Some e ∨
  ∃ s, s ∈ slots ∧ Offset s = o ∧
       0 ≤ eval env (se_sem e) < 2 ^ Z.of_N (Width s).
Proof.
  intros Hall. revert r m.
  induction Hall as [|s slots Hs _ IH]; intros r m; simpl; [by left|].
  intros Hl. apply IH in Hl as [Hl|(s' & Hs' & Ho & Hr)].
  - apply lookup_insert_Some in Hl as [[Ho <-]|[_ Hl]]; [|by left].
    right. exists s. split; [by left|]. split; [done|].
    rewrite mask_small by lia.
    assert (0 < 2 ^ Z.of_N (Width s) < 2 ^ 63) by (apply pow2_lt_63; lia).
    rewrite wrap_uint_small by lia.
    case_decide; simpl; apply land_mask_range; lia.
  - right. exists s'. split; [by right|done].
Qed.

(** In the QEMU generator no fragment of a signed immediate leaves the
    bits of its slot, whatever value the operand holds. *)
Lemma qemu_signed_fragment_range name a m o e env :
  Kind a = ArgKindSignedImm →
  Forall (λ s, (Width s < 63)%N) (Slots a) →
  GenQemuTcgDefs.argSlotExprs name a m !! o = Some e →
  m !! o = Some e ∨
  ∃ s, s ∈ Slots a ∧ Offset s = o ∧
       0 ≤ eval env (se_sem e) < 2 ^ Z.of_N (Width s).
Proof.
  intros Hk Hall. unfold GenQemuTcgDefs.argSlotExprs, TotalWidth.
  destruct (Slots a) as [|s [|s' slots]] eqn:Hslots.
  - simpl. by left.
  - rewrite decide_True by done. simpl.
    intros Hl. apply lookup_insert_Some in Hl as [[Ho <-]|[_ Hl]]; [|by left].
    right. exists s. split; [by left|]. split; [done|]. simpl.
    apply Forall_cons in Hall as [Hs _].
    rewrite N.add_0_r, mask_small by lia. apply land_mask_range. lia.
  - intros Hl. eapply qemu_multiSlotExprs_lookup in Hl; [|done].
    exact Hl.
Qed.

Lemma qemuFragment_single_signed s v :
  (Width s < 63)%N →
  qemuFragment (mkArg ArgKindSignedImm [s]) (Offset s) v
  = Some (Z.land v (2 ^ Z.of_N (Width s) - 1)).
Proof.
  intros Hw. unfold qemuFragment, GenQemuTcgDefs.argSlotExprs, TotalWidth.
  simpl. rewrite lookup_insert_eq. simpl.
  by rewrite N.add_0_r, mask_small by lia.
Qed.

(** [geninsndata] passes a single-slot operand on unchanged, signed or
    not. *)
Lemma goFragment_single k s v :
  goFragment (mkArg k [s]) (Offset s) v = Some v.
Proof.
  unfold goFragment, GenInsnData.argSlotExprs. simpl.
  by rewrite lookup_insert_eq.
Qed.

(** * Further properties of the generators *)

(** ** Loops that may panic *)


Lemma forM_is_Ok {A B} (f : A → Res B) l :
  Forall (λ a, is_Ok (f a)) l → is_Ok (forM f l).
Proof.
  induction 1 as [|a l [b Hb] _ [bs Hbs]]; simpl; [by eexists|].
  rewrite Hb. simpl. rewrite Hbs. by eexists.
Qed.

Lemma foldM_is_Ok {A B} (f : B → A → Res B) b l :
  Forall (λ a, ∀ b', is_Ok (f b' a)) l → is_Ok (foldM f b l).
Proof.
  intros Hall. revert b.
  induction Hall as [|a l Ha _ IH]; intros b; simpl; [by eexists|].
  destruct (Ha b) as [b' ->]. simpl. apply IH.
Qed.

Lemma runes_of_string_ToLower s :
  runes_of_string (ToLower s) = ascii_ToLower <$> runes_of_string s.
Proof.
  unfold ToLower. induction s as [|c s IH]; [done|].
  simpl. by rewrite IH.
Qed.

(** ** From a combination code back to its offsets *)

Lemma slotEncoderTerms_of_runes zs cs :
  Forall2 (λ z c, slotRune z = Ok c) zs cs →
  forM (λ s, offset ← slotOffsetFromRune s; Ok (s, offset))
       (ascii_ToLower <$> cs)
  = Ok (zip (ascii_ToLower <$> cs) zs).
Proof.
  induction 1 as [|z c zs cs Hzc _ IH]; [done|].
  rewrite fmap_cons. simpl.
  rewrite (slotOffsetFromRune_ToLower z c Hzc). simpl.
  rewrite IH. done.
Qed.

Lemma slotCombination_terms f sc :
  slotCombinationForFmt f = Ok sc →
  let terms := zip (ascii_ToLower <$> runes_of_string sc)
                   (sort_Ints (fmtSlotOffsets f)) in
  GenInsnData.slotEncoderTerms sc = Ok terms ∧
  GenQemuTcgDefs.slotEncoderTerms sc = Ok terms ∧
  terms.*2 = sort_Ints (fmtSlotOffsets f) ∧
  terms.*1 = runes_of_string (ToLower sc).
Proof.
  intros Hsc terms. apply slotCombinationForFmt_Ok in Hsc.
  pose proof (slotEncoderTerms_of_runes _ _ Hsc) as Hterms.
  pose proof (Forall2_length _ _ _ Hsc) as Hlen.
  unfold GenInsnData.slotEncoderTerms, GenQemuTcgDefs.slotEncoderTerms.
  rewrite runes_of_string_ToLower. split_and!; [done..| |].
  - unfold terms. rewrite snd_zip; [done|]. rewrite length_fmap. lia.
  - unfold terms. rewrite fst_zip; [done|]. rewrite length_fmap. lia.
Qed.

Lemma GenInsnData_emitSlotEncoderFn_Ok f sc ectx :
  slotCombinationForFmt f = Ok sc →
  is_Ok (GenInsnData.emitSlotEncoderFn ectx sc).
Proof.
  intros Hsc. destruct (slotCombination_terms f sc Hsc) as (Ht & _).
  unfold GenInsnData.emitSlotEncoderFn. rewrite Ht. by eexists.
Qed.

Lemma GenQemuTcgDefs_emitSlotEncoderFn_Ok f sc ectx :
  slotCombinationForFmt f = Ok sc →
  is_Ok (GenQemuTcgDefs.emitSlotEncoderFn ectx sc).
Proof.
  intros Hsc. destruct (slotCombination_terms f sc Hsc) as (_ & Ht & _).
  unfold GenQemuTcgDefs.emitSlotEncoderFn. rewrite Ht. by eexists.
Qed.

Lemma emitSlotEncoders_registry_Ok {ord : MapOrder} fmts scs :
  gatherDistinctSlotCombinations fmts = Ok scs →
  (∀ ectx, is_Ok (GenInsnData.emitSlotEncoders ectx scs)) ∧
  (∀ ectx, is_Ok (GenQemuTcgDefs.emitSlotEncoders ectx scs)).
Proof.
  intros Hscs. apply gatherDistinctSlotCombinations_Ok in Hscs
    as (_ & _ & Hin).
  split; intros ectx; apply foldM_is_Ok, Forall_forall; intros sc Hsc ectx';
    apply Hin in Hsc as (f & _ & _ & Hf).
  - by eapply GenInsnData_emitSlotEncoderFn_Ok.
  - by eapply GenQemuTcgDefs_emitSlotEncoderFn_Ok.
Qed.

(** ** The slot expressions collected for a format *)

Lemma elem_of_fmtSlots f s :
  s ∈ fmtSlots f ↔ ∃ a, a ∈ Args f ∧ s ∈ Slots a.
Proof.
  unfold fmtSlots. rewrite list_elem_of_bind. split.
  - intros (a & ? & ?). by exists a.
  - intros (a & ? & ?). by exists a.
Qed.

Lemma fmtSlotOffsets_fmtSlots f :
  fmtSlotOffsets f = (λ s, int_of_uint (Offset s)) <$> fmtSlots f.
Proof.
  unfold fmtSlotOffsets, fmtSlots.
  induction (Args f) as [|a args IH]; [done|].
  rewrite !bind_cons, fmap_app, IH. by f_equal.
Qed.

(** On a Go [uint], a known offset read as [int] is the offset. *)
Lemma int_of_uint_known u :
  (u < 2 ^ 64)%N → int_of_uint u ∈ knownOffsets → int_of_uint u = Z.of_N u.
Proof.
  intros Hu Hk. unfold int_of_uint, wrap_int in *.
  assert (0 ≤ Z.of_N u < 2 ^ 64) as Hz.
  { split; [lia|]. change (2 ^ 64) with (Z.of_N (2 ^ 64)). lia. }
  destruct (decide (Z.of_N u < 2 ^ 63)) as [Hlt|Hge].
  - rewrite Z.mod_small; lia.
  - exfalso. revert Hk.
    replace ((Z.of_N u + 2 ^ 63) `mod` 2 ^ 64) with (Z.of_N u - 2 ^ 63).
    + unfold knownOffsets, slotTags. simpl.
      rewrite !elem_of_cons, elem_of_nil. lia.
    + rewrite <-(Z.mod_add _ (-1) (2 ^ 64)) by lia.
      rewrite Z.mod_small; lia.
Qed.

Lemma knownOffsets_range z : z ∈ knownOffsets → 0 ≤ z ≤ 16.
Proof.
  unfold knownOffsets, slotTags. simpl.
  rewrite !elem_of_cons, elem_of_nil. lia.
Qed.

(** The key under which the expression of a known offset is looked
    up. *)
Lemma lookup_key_known u :
  (u < 2 ^ 64)%N → int_of_uint u ∈ knownOffsets →
  Z.to_N (wrap_uint (int_of_uint u)) = u.
Proof.
  intros Hu Hk. pose proof (knownOffsets_range _ Hk) as Hr.
  rewrite (int_of_uint_known u Hu Hk) in *.
  rewrite wrap_uint_small by lia. lia.
Qed.

Section keys_qemu.
Import GenQemuTcgDefs.


Lemma qemu_multiSlotExprs_keys n r slots m o :
  is_Some (multiSlotExprs n r slots m !! o) ↔
  is_Some (m !! o) ∨ o ∈ Offset <$> slots.
Proof.
  revert r m. induction slots as [|s slots IH]; intros r m.
  - simpl. rewrite elem_of_nil. tauto.
  - rewrite fmap_cons, elem_of_cons. simpl.
    rewrite IH, lookup_insert_is_Some.
    destruct (decide (Offset s = o)) as [Heq|Hne].
    { split; intros _; [by right; left|by left; left]. }
    split.
    + intros [[?|[_ ?]]|?]; [done|by left|by right; right].
    + intros [?|[?|?]]; [left; by right|done|by right].
Qed.

Lemma qemu_argSlotExprs_keys n a m o :
  is_Some (argSlotExprs n a m !! o) ↔
  is_Some (m !! o) ∨ o ∈ Offset <$> Slots a.
Proof.
  unfold argSlotExprs. destruct (Slots a) as [|s [|s' slots]].
  - simpl. rewrite elem_of_nil. tauto.
  - rewrite list_fmap_singleton, list_elem_of_singleton.
    destruct (decide (Kind a = ArgKindSignedImm));
      rewrite lookup_insert_is_Some;
      (destruct (decide (Offset s = o)) as [->|Hne];
       [split; intros _; [by right|by left]|]);
      (split; [intros [?|[_ ?]]; [done|by left]
              |intros [?|?]; [by right|by subst]]).
  - apply qemu_multiSlotExprs_keys.
Qed.


Lemma qemu_collect_foldl_keys m (ads : list (Arg * fieldDesc)) o :
  is_Some (foldl (λ slotExprs ad, argSlotExprs (name ad.2) ad.1 slotExprs)
                 m ads !! o) ↔
  is_Some (m !! o) ∨ ∃ ad, ad ∈ ads ∧ o ∈ Offset <$> Slots ad.1.
Proof.
  revert m. induction ads as [|ad ads IH]; intros m; simpl.
  - split; [by left|]. intros [?|(ad & Had & _)]; [done|].
    by apply elem_of_nil in Had.
  - rewrite IH, qemu_argSlotExprs_keys. split.
    + intros [[?|?]|(ad' & Had' & ?)]; [by left|right..].
      * exists ad. split; [by left|done].
      * exists ad'. split; [by right|done].
    + intros [?|(ad' & Had' & ?)]; [by left; left|].
      apply elem_of_cons in Had' as [->|Had']; [by left; right|].
      right. by exists ad'.
Qed.

Lemma qemu_collectSlotExprs_keys {cmn : Common} f o :
  is_Some (collectSlotExprs (fieldDescsForArgs (Args f)) (Args f) !! o) ↔
  o ∈ Offset <$> fmtSlots f.
Proof.
  unfold collectSlotExprs. rewrite qemu_collect_foldl_keys, lookup_empty.
  rewrite list_elem_of_fmap. split.
  - intros [[? ?]|([a fd] & Had & Ho)]; [done|]. simpl in Ho.
    apply list_elem_of_fmap in Ho as (s & -> & Hs). exists s. split; [done|].
    apply elem_of_fmtSlots. exists a. split; [|done].
    apply elem_of_zip_l in Had. done.
  - intros (s & -> & Hs). right.
    apply elem_of_fmtSlots in Hs as (a & Ha & Hs).
    apply list_elem_of_lookup in Ha as [i Hi].
    exists (a, mkFieldDesc (insnFieldNameForRegArg a)
                 match Kind a with
                 | ArgKindIntReg | ArgKindFPReg | ArgKindFCCReg => TCGReg
                 | ArgKindSignedImm => int32_t
                 | ArgKindUnsignedImm => uint32_t
                 end).
    split.
    + apply list_elem_of_lookup. exists i. apply lookup_zip_with_Some.
      eexists _, _. split_and!; [done|done|].
      unfold fieldDescsForArgs. rewrite list_lookup_fmap, Hi. done.
    + simpl. apply list_elem_of_fmap. by exists s.
Qed.
End keys_qemu.

Section keys_go.
Import GenInsnData.


Lemma go_multiSlotExprs_keys n r slots m o :
  is_Some (multiSlotExprs n r slots m !! o) ↔
  is_Some (m !! o) ∨ o ∈ Offset <$> slots.
Proof.
  revert r m. induction slots as [|s slots IH]; intros r m.
  - simpl. rewrite elem_of_nil. tauto.
  - rewrite fmap_cons, elem_of_cons. simpl.
    rewrite IH, lookup_insert_is_Some.
    destruct (decide (Offset s = o)) as [Heq|Hne].
    { split; intros _; [by right; left|by left; left]. }
    split.
    + intros [[?|[_ ?]]|?]; [done|by left|by right; right].
    + intros [?|[?|?]]; [left; by right|done|by right].
Qed.

Lemma go_argSlotExprs_keys n a m o :
  is_Some (argSlotExprs n a m !! o) ↔
  is_Some (m !! o) ∨ o ∈ Offset <$> Slots a.
Proof.
  unfold argSlotExprs. destruct (Slots a) as [|s [|s' slots]].
  - simpl. rewrite elem_of_nil. tauto.
  - rewrite list_fmap_singleton, list_elem_of_singleton.
    rewrite lookup_insert_is_Some.
    destruct (decide (Offset s = o)) as [->|Hne];
      [split; intros _; [by right|by left]|].
    split; [intros [?|[_ ?]]; [done|by left]
           |intros [?|?]; [by right|by subst]].
  - apply go_multiSlotExprs_keys.
Qed.


Lemma go_collect_foldl_keys m (ans : list (Arg * string)) o :
  is_Some (foldl (λ slotExprs an, argSlotExprs an.2 an.1 slotExprs)
                 m ans !! o) ↔
  is_Some (m !! o) ∨ ∃ an, an ∈ ans ∧ o ∈ Offset <$> Slots an.1.
Proof.
  revert m. induction ans as [|an ans IH]; intros m; simpl.
  - split; [by left|]. intros [?|(an & Han & _)]; [done|].
    by apply elem_of_nil in Han.
  - rewrite IH, go_argSlotExprs_keys. split.
    + intros [[?|?]|(an' & Han' & ?)]; [by left|right..].
      * exists an. split; [by left|done].
      * exists an'. split; [by right|done].
    + intros [?|(an' & Han' & ?)]; [by left; left|].
      apply elem_of_cons in Han' as [->|Han']; [by left; right|].
      right. by exists an'.
Qed.

Lemma go_collectSlotExprs_keys {cmn : Common} f o :
  is_Some (collectSlotExprs ((λ a, ToLower (Arg_CanonicalRepr a)) <$> Args f)
             (Args f) !! o) ↔
  o ∈ Offset <$> fmtSlots f.
Proof.
  unfold collectSlotExprs. rewrite go_collect_foldl_keys, lookup_empty.
  rewrite list_elem_of_fmap. split.
  - intros [[? ?]|([a n] & Han & Ho)]; [done|]. simpl in Ho.
    apply list_elem_of_fmap in Ho as (s & -> & Hs). exists s. split; [done|].
    apply elem_of_fmtSlots. exists a. split; [|done].
    apply elem_of_zip_l in Han. done.
  - intros (s & -> & Hs). right.
    apply elem_of_fmtSlots in Hs as (a & Ha & Hs).
    apply list_elem_of_lookup in Ha as [i Hi].
    exists (a, ToLower (Arg_CanonicalRepr a)). split.
    + apply list_elem_of_lookup. exists i. apply lookup_zip_with_Some.
      eexists _, _. split_and!; [done|done|].
      rewrite list_lookup_fmap, Hi. done.
    + simpl. apply list_elem_of_fmap. by exists s.
Qed.
End keys_go.

(** ** When the generators can write an encoder *)

Lemma knownSlots_fmtSlotOffsets f :
  uintOffsets f →
  knownSlots f ↔ Forall (λ z, z ∈ knownOffsets) (fmtSlotOffsets f).
Proof.
  unfold uintOffsets, knownSlots. rewrite fmtSlotOffsets_fmtSlots.
  rewrite Forall_fmap, !Forall_forall. intros Hu. split.
  - intros Hk s Hs. simpl. rewrite int_of_uint_small; [by apply Hk|].
    specialize (Hk s Hs). apply knownOffsets_range in Hk.
    apply N2Z.inj_lt. change (Z.of_N (2 ^ 63)) with (2 ^ 63). lia.
  - intros Hk s Hs. specialize (Hk s Hs). simpl in Hk.
    by rewrite <-(int_of_uint_known _ (Hu s Hs) Hk).
Qed.

Lemma slotCombinationForFmt_is_Ok f :
  uintOffsets f → is_Ok (slotCombinationForFmt f) ↔ knownSlots f.
Proof.
  intros Hu. rewrite (knownSlots_fmtSlotOffsets f Hu). split.
  - intros [sc Hsc]. apply Forall_forall. intros z Hz.
    destruct (decide (z ∈ knownOffsets)) as [|Hbad]; [done|].
    assert (slotCombinationForFmt f = Panic "should never happen") as Hp.
    { apply slotCombinationForFmt_Panic. split; [|done]. by exists z. }
    congruence.
  - apply slotCombinationForFmt_known.
Qed.

(** Every rune of the combination code of a format finds its
    expression. *)
Lemma callArgs_runes_Ok f sc (slotExprs : gmap N SlotExpr) :
  uintOffsets f → slotCombinationForFmt f = Ok sc →
  (∀ o, o ∈ Offset <$> fmtSlots f → is_Some (slotExprs !! o)) →
  is_Ok (forM (λ s,
                 offset ← slotOffsetFromRune s;
                 match slotExprs !! Z.to_N (wrap_uint offset) with
                 | Some slotExpr => Ok slotExpr
                 | None => Panic "should never happen"
                 end)
              (runes_of_string sc)).
Proof.
  intros Hu Hsc Hkeys. apply slotCombinationForFmt_Ok in Hsc.
  apply forM_is_Ok, Forall_forall. intros c Hc.
  apply list_elem_of_lookup in Hc as [i Hi].
  destruct (Forall2_lookup_r _ _ _ _ _ Hsc Hi) as (z & Hz & Hzc).
  apply list_elem_of_lookup_2 in Hz.
  rewrite (sort_Ints_perm (fmtSlotOffsets f)) in Hz.
  rewrite fmtSlotOffsets_fmtSlots in Hz.
  apply list_elem_of_fmap in Hz as (s & -> & Hs).
  rewrite (slotOffsetFromRune_slotRune _ _ Hzc). simpl.
  assert (int_of_uint (Offset s) ∈ knownOffsets) as Hk.
  { apply slotRune_Ok in Hzc. unfold knownOffsets.
    apply list_elem_of_fmap. by eexists (_, _). }
  unfold uintOffsets in Hu. rewrite Forall_forall in Hu.
  rewrite (lookup_key_known _ (Hu s Hs) Hk).
  destruct (Hkeys (Offset s)) as [e ->]; [|by eexists].
  apply list_elem_of_fmap. by exists s.
Qed.

Section encoder_written.
Context {cmn : Common}.

Lemma fmtEncoder_is_Ok f :
  uintOffsets f → is_Ok (GenQemuTcgDefs.fmtEncoder f) ↔ knownSlots f.
Proof.
  intros Hu. rewrite <-(slotCombinationForFmt_is_Ok f Hu).
  unfold GenQemuTcgDefs.fmtEncoder. case_decide as Hlen.
  - split; [intros _|by eexists]. exists EmptyString.
    unfold slotCombinationForFmt.
    rewrite fmtSlotOffsets_nil; [done|]. by destruct (Args f).
  - destruct (slotCombinationForFmt f) as [sc|msg] eqn:Hsc; simpl.
    + split; [by eexists|]. intros _.
      destruct (callArgs_runes_Ok f sc
                  (GenQemuTcgDefs.collectSlotExprs
                     (GenQemuTcgDefs.fieldDescsForArgs (Args f)) (Args f))
                  Hu Hsc) as [args Hargs].
      { intros o Ho. by apply qemu_collectSlotExprs_keys. }
      unfold GenQemuTcgDefs.callArgs. rewrite Hargs. by eexists.
    + split; intros [? ?]; done.
Qed.
End encoder_written.

(** ** The fields read by the code written for the Go assembler *)

Section field_names.
Import GenInsnData.

Lemma insnFieldNameForRegArg_Ok a n :
  insnFieldNameForRegArg a = Ok n ↔
  ∃ s rest, Slots a = s :: rest ∧ (Z.of_N (Offset s), n) ∈ regFields.
Proof.
  unfold insnFieldNameForRegArg, regFields, slotD, slotJ, slotK, slotA.
  destruct (Slots a) as [|s rest].
  - split; [done|]. by intros (? & ? & ? & _).
  - split.
    + intros Hn. exists s, rest. split; [done|].
      rewrite !elem_of_cons, elem_of_nil.
      repeat match goal with
      | H : context [decide (?x = ?k)] |- _ =>
          destruct (decide (x = k)) as [->|?]
      end; simplify_eq; auto 10.
    + intros (s' & rest' & [= <- <-] & Hin).
      rewrite !elem_of_cons, elem_of_nil in Hin.
      repeat destruct Hin as [Hin|Hin]; try done;
        injection Hin as -> ->; reflexivity.
Qed.

Lemma insnFieldNameForRegArg_is_Ok a :
  IsImm (Kind a) = false →
  is_Ok (insnFieldNameForRegArg a) ↔ regFieldKnown a.
Proof.
  intros Hk. split.
  - intros [n Hn]. apply insnFieldNameForRegArg_Ok in Hn
      as (s & rest & Hs & Hin).
    right. exists s, rest. split; [done|].
    change [0; 5; 10; 15] with (regFields.*1).
    apply list_elem_of_fmap. by eexists (_, _).
  - intros Hr. by apply insnFieldNameForRegArg_known.
Qed.

Lemma fieldNamesFrom_is_Ok immIdx args :
  is_Ok (fieldNamesFrom immIdx args) ↔ Forall regFieldKnown args.
Proof.
  split; [|apply fieldNamesFrom_known].
  revert immIdx. induction args as [|a args IH]; intros immIdx; [done|].
  simpl. destruct (IsImm (Kind a)) eqn:Hk.
  - destruct (fieldNamesFrom (immIdx + 1) args) as [ns|] eqn:E;
      [|by intros [? ?]].
    intros _. constructor; [by left|]. apply (IH (immIdx + 1)).
    rewrite E. by eexists.
  - destruct (insnFieldNameForRegArg a) as [n|] eqn:Hn; [|by intros [? ?]].
    simpl. destruct (fieldNamesFrom immIdx args) as [ns|] eqn:E;
      [|by intros [? ?]].
    intros _. constructor.
    + apply insnFieldNameForRegArg_is_Ok; [done|]. rewrite Hn. by eexists.
    + apply (IH immIdx). rewrite E. by eexists.
Qed.

Lemma immCount_cons a args :
  immCount (a :: args)
  = ((if IsImm (Kind a) then 1 else 0) + immCount args)%nat.
Proof.
  unfold immCount. rewrite filter_cons.
  destruct (IsImm (Kind a)); [by rewrite decide_True|by rewrite decide_False].
Qed.

(** The name found at the place of each argument. *)
Lemma fieldNamesFrom_lookup immIdx args names k a :
  fieldNamesFrom immIdx args = Ok names → args !! k = Some a →
  ∃ n, names !! k = Some n ∧
    if IsImm (Kind a)
    then n = "imm" +:+ fmt_d (immIdx + Z.of_nat (immCount (take (S k) args)))
    else ∃ s rest, Slots a = s :: rest ∧ (Z.of_N (Offset s), n) ∈ regFields.
Proof.
  revert immIdx names k. induction args as [|a0 args IH];
    intros immIdx names k Hn Hk; [done|].
  simpl in Hn. destruct (IsImm (Kind a0)) eqn:Hk0.
  - destruct (fieldNamesFrom (immIdx + 1) args) as [ns|] eqn:E; [|done].
    simpl in Hn. injection Hn as <-. destruct k as [|k].
    + simpl in Hk. injection Hk as <-. eexists. split; [done|].
      rewrite Hk0. change (take 1 (a0 :: args)) with [a0].
      rewrite immCount_cons, Hk0.
      do 2 f_equal; try (unfold immCount; simpl; lia).
    + simpl in Hk. destruct (IH _ _ _ E Hk) as (n & Hn & Hspec).
      exists n. split; [done|]. destruct (IsImm (Kind a)); [|done].
      rewrite Hspec. rewrite (firstn_cons (S k)), immCount_cons, Hk0.
      do 2 f_equal; try lia.
  - destruct (insnFieldNameForRegArg a0) as [n0|] eqn:Hn0; [|done].
    simpl in Hn.
    destruct (fieldNamesFrom immIdx args) as [ns|] eqn:E; [|done].
    simpl in Hn. injection Hn as <-. destruct k as [|k].
    + simpl in Hk. injection Hk as <-. eexists. split; [done|].
      rewrite Hk0. by apply insnFieldNameForRegArg_Ok.
    + simpl in Hk. destruct (IH _ _ _ E Hk) as (n & Hn & Hspec).
      exists n. split; [done|]. destruct (IsImm (Kind a)); [|done].
      rewrite Hspec. rewrite (firstn_cons (S k)), immCount_cons, Hk0.
      do 2 f_equal; try lia.
Qed.
End field_names.

(** ** When a run gets as far as the formatter *)

Lemma foldM_is_Panic {A B} (f : B → A → Res B) b l a :
  a ∈ l → (∀ b', is_Panic (f b' a)) → is_Panic (foldM f b l).
Proof.
  intros Ha Hp. revert b. induction l as [|a0 l IH]; intros b.
  - by apply elem_of_nil in Ha.
  - simpl. destruct (f b a0) as [b'|msg] eqn:E; simpl; [|by eexists].
    apply elem_of_cons in Ha as [->|Ha]; [|by apply IH].
    destruct (Hp b) as [msg Hmsg]. congruence.
Qed.

Lemma not_knownSlots_offset f :
  uintOffsets f → ¬ knownSlots f →
  ∃ z, z ∈ fmtSlotOffsets f ∧ z ∉ knownOffsets.
Proof.
  intros Hu Hn. rewrite (knownSlots_fmtSlotOffsets f Hu) in Hn.
  apply not_Forall_Exists in Hn; [|apply _].
  apply Exists_exists in Hn as (z & Hz & Hbad). by exists z.
Qed.

Section runs.
Context {cmn : Common} {ord : MapOrder} {srt : SortAlg}.

Lemma registry_is_Ok fmts :
  Forall uintOffsets fmts → Forall knownSlots fmts →
  is_Ok (gatherDistinctSlotCombinations fmts).
Proof.
  intros Hu Hk.
  destruct (gatherDistinctSlotCombinations fmts) as [scs|msg] eqn:E;
    [by eexists|].
  apply gatherDistinctSlotCombinations_Panic in E
    as [(f & z & Hf & Hz & Hbad) _].
  rewrite Forall_forall in Hu, Hk.
  apply (knownSlots_fmtSlotOffsets f (Hu f Hf)) in Hk; [|done].
  rewrite Forall_forall in Hk. by apply Hk in Hz.
Qed.

Lemma GenInsnData_validatorChecks_is_Ok f :
  is_Ok (GenInsnData.validatorChecks f) ↔ Forall regFieldKnown (Args f).
Proof.
  rewrite <-(fieldNamesFrom_is_Ok 0).
  unfold GenInsnData.validatorChecks, GenInsnData.fieldNamesForArgs.
  destruct (GenInsnData.fieldNamesFrom 0 (Args f)); simpl.
  - split; intros _; by eexists.
  - split; intros [? ?]; done.
Qed.

Lemma GenInsnData_emitValidatorForFormat_is_Ok ectx f :
  is_Ok (GenInsnData.emitValidatorForFormat ectx f) ↔
  Forall regFieldKnown (Args f).
Proof.
  rewrite <-GenInsnData_validatorChecks_is_Ok.
  unfold GenInsnData.emitValidatorForFormat.
  destruct (GenInsnData.validatorChecks f); simpl.
  - split; intros _; by eexists.
  - split; intros [? ?]; done.
Qed.

Lemma bigEncoderCase_is_Ok f :
  uintOffsets f →
  is_Ok (GenInsnData.bigEncoderCase f) ↔
  Forall regFieldKnown (Args f) ∧ knownSlots f.
Proof.
  intros Hu. rewrite <-(slotCombinationForFmt_is_Ok f Hu).
  rewrite <-(fieldNamesFrom_is_Ok 0).
  unfold GenInsnData.bigEncoderCase, GenInsnData.fieldNamesForArgs.
  case_decide as Hlen.
  - assert (Args f = []) as Hnil by (by destruct (Args f)).
    split; [intros _|by eexists]. rewrite Hnil. split; [by eexists|].
    exists EmptyString. unfold slotCombinationForFmt.
    by rewrite fmtSlotOffsets_nil.
  - destruct (GenInsnData.fieldNamesFrom 0 (Args f)) as [names|] eqn:Hn;
      simpl; [|split; [by intros [? ?]|by intros [[? ?] _]]].
    destruct (slotCombinationForFmt f) as [sc|msg] eqn:Hsc; simpl;
      [|split; [by intros [? ?]|by intros [_ [? ?]]]].
    split; [intros _; split; by eexists|]. intros _.
    destruct (callArgs_runes_Ok f sc
                (GenInsnData.collectSlotExprs
                   ((λ a, ToLower (Arg_CanonicalRepr a)) <$> Args f) (Args f))
                Hu Hsc) as [args Hargs].
    { intros o Ho. by apply go_collectSlotExprs_keys. }
    unfold GenInsnData.callArgs. rewrite Hargs. by eexists.
Qed.

Lemma emitBigCase_is_Ok ectx f :
  uintOffsets f →
  is_Ok (GenInsnData.emitBigCase ectx f) ↔
  Forall regFieldKnown (Args f) ∧ knownSlots f.
Proof.
  intros Hu. rewrite <-(bigEncoderCase_is_Ok f Hu).
  unfold GenInsnData.emitBigCase.
  destruct (GenInsnData.bigEncoderCase f) as [[c|]|]; simpl.
  - split; intros _; by eexists.
  - split; intros _; by eexists.
  - split; intros [? ?]; done.
Qed.

Lemma emitFmtEncoderFn_is_Ok ectx f :
  uintOffsets f →
  is_Ok (GenQemuTcgDefs.emitFmtEncoderFn ectx f) ↔ knownSlots f.
Proof.
  intros Hu. rewrite <-(fmtEncoder_is_Ok f Hu).
  unfold GenQemuTcgDefs.emitFmtEncoderFn.
  destruct (GenQemuTcgDefs.fmtEncoder f) as [[e|]|]; simpl.
  - split; intros _; by eexists.
  - split; intros _; by eexists.
  - split; intros [? ?]; done.
Qed.

(** A run of [geninsndata] reaches gofmt exactly when every format of
    the catalog has its slots at known offsets and its registers at
    offsets that name a field. *)
Lemma GenInsnData_main_reaches_gofmt descs :
  Forall uintOffsets (gatherFormats descs) →
  (Forall (λ f, knownSlots f ∧ Forall regFieldKnown (Args f))
          (gatherFormats descs) →
   ∃ ectx, GenInsnData.main descs = format_Source (GenInsnData.buf ectx)) ∧
  (∀ f, f ∈ gatherFormats descs →
        ¬ (knownSlots f ∧ Forall regFieldKnown (Args f)) →
        is_Panic (GenInsnData.main descs)).
Proof.
  intros Hu. split.
  - intros Hall. unfold GenInsnData.main.
    destruct (registry_is_Ok (gatherFormats descs)) as [scs Hscs]; [done|..].
    { eapply Forall_impl; [exact Hall|]. by intros f [? _]. }
    rewrite Hscs. simpl.
    assert (Forall (λ f, uintOffsets f ∧ knownSlots f ∧
                         Forall regFieldKnown (Args f))
                   (sort_Slice lessFormat (gatherFormats descs))) as Hsorted.
    { rewrite sort_Slice_perm. apply Forall_and. split; [done|].
      exact Hall. }
    match goal with
    | |- context [foldM GenInsnData.emitValidatorForFormat ?c ?l] =>
        destruct (foldM_is_Ok GenInsnData.emitValidatorForFormat c l)
          as [ectx1 ->]
    end.
    { eapply Forall_impl; [exact Hsorted|]. intros f (_ & _ & Hr) b'.
      by apply GenInsnData_emitValidatorForFormat_is_Ok. }
    simpl.
    destruct (emitSlotEncoders_registry_Ok _ _ Hscs) as [Hse _].
    destruct (Hse ectx1) as [ectx2 ->]. simpl.
    unfold GenInsnData.emitBigEncoderFn.
    match goal with
    | |- context [foldM GenInsnData.emitBigCase ?c ?l] =>
        destruct (foldM_is_Ok GenInsnData.emitBigCase c l) as [ectx3 ->]
    end.
    { eapply Forall_impl; [exact Hsorted|]. intros f (Hf & Hk & Hr) b'.
      by apply emitBigCase_is_Ok. }
    simpl. unfold GenInsnData.finalize. by eexists.
  - intros f Hf Hbad. rewrite Forall_forall in Hu.
    destruct (decide (knownSlots f)) as [Hk|Hnk].
    + assert (¬ Forall regFieldKnown (Args f)) as Hnr by tauto.
      unfold GenInsnData.main.
      destruct (gatherDistinctSlotCombinations (gatherFormats descs))
        as [scs|msg] eqn:Hscs; simpl; [|by eexists].
      match goal with
      | |- context [foldM GenInsnData.emitValidatorForFormat ?c ?l] =>
          destruct (foldM_is_Panic GenInsnData.emitValidatorForFormat c l f)
            as [msg Hmsg]
      end.
      { by rewrite sort_Slice_perm. }
      { intros b'.
        destruct (GenInsnData.emitValidatorForFormat b' f) as [c|msg] eqn:E;
          [|by eexists].
        exfalso. apply Hnr.
        apply (GenInsnData_emitValidatorForFormat_is_Ok b' f).
        rewrite E. by eexists. }
      rewrite Hmsg. simpl. by eexists.
    + destruct (not_knownSlots_offset f (Hu f Hf) Hnk) as (z & Hz & Hzbad).
      exists "should never happen". apply GenInsnData_main_Panic.
      apply gatherDistinctSlotCombinations_Panic. split; [|done].
      by exists f, z.
Qed.

(** The QEMU generator leaves the mode of its buffer alone. *)
Lemma Emit_mode c s :
  GenQemuTcgDefs.DontGofmt (GenQemuTcgDefs.Emit c s)
  = GenQemuTcgDefs.DontGofmt c.
Proof. reflexivity. Qed.

Lemma foldl_mode {A} (step : GenQemuTcgDefs.EmitterCtx → A →
                             GenQemuTcgDefs.EmitterCtx) c l :
  (∀ c x, GenQemuTcgDefs.DontGofmt (step c x) = GenQemuTcgDefs.DontGofmt c) →
  GenQemuTcgDefs.DontGofmt (foldl step c l) = GenQemuTcgDefs.DontGofmt c.
Proof.
  intros Hstep. revert c. induction l as [|x l IH]; intros c; [done|].
  simpl. by rewrite IH, Hstep.
Qed.

Lemma foldM_mode {A} (step : GenQemuTcgDefs.EmitterCtx → A →
                             Res GenQemuTcgDefs.EmitterCtx) c l c' :
  (∀ c x c', step c x = Ok c' →
             GenQemuTcgDefs.DontGofmt c' = GenQemuTcgDefs.DontGofmt c) →
  foldM step c l = Ok c' →
  GenQemuTcgDefs.DontGofmt c' = GenQemuTcgDefs.DontGofmt c.
Proof.
  intros Hstep. revert c. induction l as [|x l IH]; intros c; simpl.
  - by intros [= <-].
  - destruct (step c x) as [c1|] eqn:E; [|done]. simpl. intros Hl.
    rewrite (IH _ Hl). by eapply Hstep.
Qed.

Lemma emitSlotEncoderFn_mode c sc c' :
  GenQemuTcgDefs.emitSlotEncoderFn c sc = Ok c' →
  GenQemuTcgDefs.DontGofmt c' = GenQemuTcgDefs.DontGofmt c.
Proof.
  unfold GenQemuTcgDefs.emitSlotEncoderFn.
  destruct (GenQemuTcgDefs.slotEncoderTerms sc) as [terms|]; [|done].
  simpl. intros [= <-]. rewrite Emit_mode, foldl_mode.
  - rewrite !Emit_mode. by rewrite foldl_mode.
  - intros c0 t. unfold GenQemuTcgDefs.emitSlotTerm. by case_decide.
Qed.

Lemma emitFmtEncoderFn_mode c f c' :
  GenQemuTcgDefs.emitFmtEncoderFn c f = Ok c' →
  GenQemuTcgDefs.DontGofmt c' = GenQemuTcgDefs.DontGofmt c.
Proof.
  unfold GenQemuTcgDefs.emitFmtEncoderFn.
  destruct (GenQemuTcgDefs.fmtEncoder f) as [[e|]|]; simpl; [|congruence|done].
  intros [= <-]. rewrite Emit_mode, foldl_mode by done.
  rewrite Emit_mode, foldl_mode by done.
  rewrite Emit_mode, foldl_mode by done. done.
Qed.

Lemma emitTCGEmitterForInsn_mode c d :
  GenQemuTcgDefs.DontGofmt (GenQemuTcgDefs.emitTCGEmitterForInsn c d)
  = GenQemuTcgDefs.DontGofmt c.
Proof.
  unfold GenQemuTcgDefs.emitTCGEmitterForInsn. cbv zeta.
  case_decide.
  - rewrite !Emit_mode. by rewrite foldl_mode.
  - rewrite !Emit_mode, foldl_mode by done.
    rewrite !Emit_mode. by rewrite foldl_mode.
Qed.

(** A run of the QEMU generator reaches clang-format exactly when every
    format of the records it selects has its slots at known offsets. *)
Lemma GenQemuTcgDefs_main_reaches_clang_format descs :
  let formats := gatherFormats (GenQemuTcgDefs.filterUnusedInsns descs) in
  Forall uintOffsets formats →
  (Forall knownSlots formats →
   ∃ text, GenQemuTcgDefs.main descs = clang_format text) ∧
  (∀ f, f ∈ formats → ¬ knownSlots f →
        GenQemuTcgDefs.main descs = Panic "should never happen").
Proof.
  intros formats Hu. split.
  - intros Hall. unfold GenQemuTcgDefs.main. fold formats.
    destruct (registry_is_Ok formats) as [scs Hscs]; [done..|].
    rewrite Hscs. simpl.
    match goal with
    | |- context [GenQemuTcgDefs.emitSlotEncoders ?c scs] =>
        destruct (proj2 (emitSlotEncoders_registry_Ok _ _ Hscs) c)
          as [ectx1 Hectx1];
        pose proof (foldM_mode _ _ _ _ emitSlotEncoderFn_mode Hectx1) as Hm1;
        rewrite Hectx1
    end.
    simpl.
    destruct (foldM_is_Ok GenQemuTcgDefs.emitFmtEncoderFn ectx1
                (sort_Slice lessFormat formats)) as [ectx2 Hectx2].
    { rewrite sort_Slice_perm. apply Forall_forall. intros f Hf b'.
      rewrite Forall_forall in Hu, Hall.
      apply emitFmtEncoderFn_is_Ok; [by apply Hu|by apply Hall]. }
    pose proof (foldM_mode _ _ _ _ emitFmtEncoderFn_mode Hectx2) as Hm2.
    rewrite Hectx2. simpl. unfold GenQemuTcgDefs.Finalize.
    rewrite Emit_mode, foldl_mode by apply emitTCGEmitterForInsn_mode.
    rewrite Hm2, Hm1. unfold GenQemuTcgDefs.emitOpcEnum.
    rewrite Emit_mode, foldl_mode by done. simpl. by eexists.
  - intros f Hf Hnk. rewrite Forall_forall in Hu.
    destruct (not_knownSlots_offset f (Hu f Hf) Hnk) as (z & Hz & Hzbad).
    apply GenQemuTcgDefs_main_Panic.
    apply gatherDistinctSlotCombinations_Panic. split; [|done].
    by exists f, z.
Qed.
End runs.

(** ** Splitting an operand over slots and putting it back *)



Lemma widthSum_cons s slots :
  widthSum (s :: slots) = (Width s + widthSum slots)%N.
Proof. reflexivity. Qed.




Lemma widthSum_le s slots : s ∈ slots → (Width s ≤ widthSum slots)%N.
Proof.
  induction 1 as [s slots|s s' slots _ IH]; rewrite widthSum_cons; lia.
Qed.

Section fragments_written.






End fragments_written.

(** ** The names of the functions written *)

Lemma string_length_app s1 s2 :
  String.length (s1 +:+ s2) = (String.length s1 + String.length s2)%nat.
Proof.
  induction s1 as [|c s1 IH]; [by rewrite string_app_nil_l|].
  rewrite string_app_cons. simpl. by rewrite IH.
Qed.

Lemma string_app_inj_len s1 s2 t1 t2 :
  String.length s1 = String.length s2 →
  s1 +:+ t1 = s2 +:+ t2 → s1 = s2 ∧ t1 = t2.
Proof.
  revert s2. induction s1 as [|c s1 IH]; intros [|c' s2] Hlen; try done.
  rewrite !string_app_cons. intros [= -> Heq].
  simpl in Hlen. destruct (IH s2 ltac:(lia) Heq) as [-> ->]. done.
Qed.

Lemma ToLower_length s : String.length (ToLower s) = String.length s.
Proof. unfold ToLower. induction s as [|c s IH]; simpl; by f_equal. Qed.

(** A stem between a fixed prefix and a suffix that is [suffix] or
    [suffix] followed by one more letter, the longer one for stems of
    more than one letter: the stem can be read off the name. *)
Lemma plural_name_inj pre suffix x y :
  pre +:+ x +:+ suffix +:+
    (if decide (1 < String.length x)%nat then "s" else EmptyString)
  = pre +:+ y +:+ suffix +:+
    (if decide (1 < String.length y)%nat then "s" else EmptyString) →
  x = y.
Proof.
  intros Heq. apply string_app_inj_len in Heq as [_ Heq]; [|done].
  assert (String.length x = String.length y) as Hlen.
  { apply (f_equal String.length) in Heq.
    rewrite !string_length_app in Heq.
    repeat case_decide; simpl in Heq; lia. }
  by apply string_app_inj_len in Heq as [-> _].
Qed.

Lemma GenInsnData_slotEncoderFnNameForSc_inj sc1 sc2 :
  GenInsnData.slotEncoderFnNameForSc sc1
  = GenInsnData.slotEncoderFnNameForSc sc2 → sc1 = sc2.
Proof. apply plural_name_inj. Qed.

Lemma GenQemuTcgDefs_slotEncoderFnNameForSc_inj sc1 sc2 :
  GenQemuTcgDefs.slotEncoderFnNameForSc sc1
  = GenQemuTcgDefs.slotEncoderFnNameForSc sc2 → ToLower sc1 = ToLower sc2.
Proof.
  unfold GenQemuTcgDefs.slotEncoderFnNameForSc.
  rewrite <-(ToLower_length sc1), <-(ToLower_length sc2).
  apply plural_name_inj.
Qed.

(** Codes made of the tags are told apart by their lower-case form. *)
Lemma ToLower_inj_tags sc1 sc2 :
  Forall (λ c, c ∈ slotTags.*2) (runes_of_string sc1) →
  Forall (λ c, c ∈ slotTags.*2) (runes_of_string sc2) →
  ToLower sc1 = ToLower sc2 → sc1 = sc2.
Proof.
  unfold ToLower. revert sc2.
  induction sc1 as [|c1 sc1 IH]; intros [|c2 sc2]; try done.
  simpl. intros H1 H2 [= Hc Hs].
  apply Forall_cons in H1 as [Hc1 H1]. apply Forall_cons in H2 as [Hc2 H2].
  f_equal; [|by apply IH].
  unfold slotTags in Hc1, Hc2. simpl in Hc1, Hc2.
  rewrite !elem_of_cons, elem_of_nil in Hc1, Hc2.
  destruct Hc1 as [->|[->|[->|[->|[->|[]]]]]];
    destruct Hc2 as [->|[->|[->|[->|[->|[]]]]]];
    by vm_compute in Hc.
Qed.

Lemma slotCombinationForFmt_tags f sc :
  slotCombinationForFmt f = Ok sc →
  Forall (λ c, c ∈ slotTags.*2) (runes_of_string sc).
Proof.
  intros Hsc. apply slotCombinationForFmt_Ok in Hsc.
  apply Forall_forall. intros c Hc.
  apply list_elem_of_lookup in Hc as [i Hi].
  destruct (Forall2_lookup_r _ _ _ _ _ Hsc Hi) as (z & _ & Hzc).
  apply slotRune_Ok in Hzc. apply list_elem_of_fmap. by exists (z, c).
Qed.

(** ** The names made from mnemonics *)

Lemma runes_ReplaceAll1_remove s old :
  runes_of_string (ReplaceAll1 s old EmptyString)
  = filter (λ c, c ≠ old) (runes_of_string s).
Proof.
  induction s as [|c s IH]; [done|]. simpl.
  destruct (Ascii.eqb_spec c old) as [->|Hne].
  - rewrite string_app_nil_l, filter_cons_False by (by intros ?). done.
  - rewrite string_app_cons, string_app_nil_l, filter_cons_True by done.
    simpl. by rewrite IH.
Qed.

Lemma runes_ReplaceAll1_char s old new :
  runes_of_string (ReplaceAll1 s old (String new EmptyString))
  = (λ c, if Ascii.eqb c old then new else c) <$> runes_of_string s.
Proof.
  induction s as [|c s IH]; [done|]. cbn [runes_of_string ReplaceAll1].
  rewrite fmap_cons, <-IH.
  destruct (Ascii.eqb c old); by rewrite string_app_cons, string_app_nil_l.
Qed.

Lemma runes_ToUpper s :
  runes_of_string (ToUpper s) = ascii_ToUpper <$> runes_of_string s.
Proof.
  unfold ToUpper. induction s as [|c s IH]; [done|]. simpl. by rewrite IH.
Qed.

Lemma string_length_runes s : String.length s = length (runes_of_string s).
Proof. induction s as [|c s IH]; simpl; by f_equal. Qed.

(** Upper-casing a character of a mnemonic gives an upper-case letter, a
    digit, a dot or an underscore. *)
Lemma ToUpper_mnemonicChar c :
  mnemonicChar c = true →
  (ascii_is_upper (ascii_ToUpper c) || ascii_is_digit (ascii_ToUpper c)
   = true ∨ c = "."%char ∨ c = "_"%char) ∧
  (c = "."%char → ascii_ToUpper c = "."%char) ∧
  (c = "_"%char → ascii_ToUpper c = "_"%char).
Proof.
  intros Hc. split; [|by split; intros ->].
  destruct c as [[] [] [] [] [] [] [] []]; vm_compute in Hc; try done;
    vm_compute; auto.
Qed.

(** ** The statements [geninstformats] writes for a multi-slot argument *)




(** ** The word a QEMU encoder returns *)




Section word.
Context {cmn : Common}.

End word.

(** ** The values a QEMU encoder hands to the slots *)

Section values.
Import GenQemuTcgDefs.






End values.

(** ** The bits of the word *)














Section word_bits.
Context (f : InsnFormat) (val : N → option Z) (opc : Z) (vals : list Z).
Hypothesis Hknown : knownSlots f.
Hypothesis Hinside :
  Forall (λ s, (0 < Width s)%N ∧ (Offset s + Width s ≤ 32)%N) (fmtSlots f).
Hypothesis Hvals :
  Forall2 (λ z v, val (Z.to_N z) = Some v) (sort_Ints (fmtSlotOffsets f))
          vals.
Hypothesis Hfits :
  ∀ s, s ∈ fmtSlots f →
       ∃ fr, val (Offset s) = Some fr ∧ 0 ≤ fr < 2 ^ Z.of_N (Width s).



End word_bits.

(** ** From the word back to the operands *)


Section round_trip.
Context {cmn : Common}.
Import GenQemuTcgDefs.




Section operands.
Context (f : InsnFormat) (operands : list Z).
Hypothesis Hlaid : laidOut f.
Hypothesis Hnames : NoDup (name <$> fieldDescsForArgs (Args f)).
Hypothesis Hops : Forall2 operandFits (Args f) operands.




End operands.
End round_trip.


Section encode_decode.
Context {cmn : Common}.
Import GenQemuTcgDefs.




End encode_decode.

(** ** The word of the encoder written by [geninsndata] *)


Section go_values.
Import GenInsnData.






End go_values.

Section go_encode_decode.
Context {cmn : Common}.
Import GenInsnData.






End go_encode_decode.

(** ** The assertions of a QEMU encoder reject what does not fit *)

Section asserts_exact.
Context {cmn : Common}.
Import GenQemuTcgDefs.



End asserts_exact.

(** ** The word of an encoder written by [geninstformats], for
    arguments of one slot *)


Section instformats_word.
Context {cmn : Common}.
Import GenInstFormats.




End instformats_word.

(** * The claims *)

(** C4.  For every list of records, format canonicalization is an
    idempotent deduplication keyed by the canonical signature: the catalog
    has exactly one entry per distinct signature (its size is the number of
    distinct signatures, not the number of records), the entry stored under
    a signature is the format of the first record that has it, and feeding
    a record again, or all records again, changes nothing. *)
Theorem C4_gatherFormats_dedup {cmn : Common} {ord : MapOrder}
    (descs : list InsnDescription) :
  let catalog := gatherFormats descs in
  length catalog = length (remove_dups (sigOf <$> descs)) ∧
  NoDup (Fmt_CanonicalRepr <$> catalog) ∧
  (∀ name, name ∈ Fmt_CanonicalRepr <$> catalog ↔ name ∈ sigOf <$> descs) ∧
  (∀ f, f ∈ catalog ↔
     ∃ i d, descs !! i = Some d ∧ Format d = f ∧
       ∀ j d', descs !! j = Some d' → (j < i)%nat → sigOf d' ≠ sigOf d) ∧
  (∀ m d, gatherFormatsStep (gatherFormatsStep m d) d
          = gatherFormatsStep m d) ∧
  gatherFormats (descs ++ descs) = catalog.
Proof.
  intros catalog. subst catalog. split_and!.
  - apply gatherFormats_length.
  - apply gatherFormats_NoDup_sigs.
  - apply gatherFormats_sigs_elem_of.
  - intros f. rewrite gatherFormats_elem_of. split.
    + intros (d & Hd & Hf). apply firstWith_Some in Hd as (i & Hi & Hs & Hlt).
      exists i, d. split_and!; [done..|].
      intros j d' Hj Hji. rewrite Hs. by apply (Hlt j).
    + intros (i & d & Hi & Hf & Hlt). exists d. split; [|done].
      apply firstWith_Some. exists i. split_and!; [done| |].
      * unfold sigOf. by rewrite Hf.
      * intros j d' Hj Hji. rewrite <-Hf. by apply (Hlt j).
  - apply gatherFormatsStep_idemp.
  - unfold gatherFormats. by rewrite gatherFormatsSet_app_again.
Qed.

(** C6.  For every non-empty format whose slots sit at offsets that have
    a tag, the slot-combination code has one tag per slot, the tags being
    those of the slot offsets of all arguments in ascending order; the
    registry skips the empty format and returns the distinct codes,
    sorted. *)
Theorem C6_slot_combination_codes {ord : MapOrder} (fmts : list InsnFormat) :
  (∀ f, f ∈ fmts → Forall (λ z, z ∈ knownOffsets) (fmtSlotOffsets f)) →
  (∀ f, f ∈ fmts → Args f ≠ [] →
     ∃ sc offsets,
       slotCombinationForFmt f = Ok sc ∧
       offsets ≡ₚ fmtSlotOffsets f ∧ Sorted Z.le offsets ∧
       Forall2 (λ z c, (z, c) ∈ slotTags) offsets (runes_of_string sc)) ∧
  ∃ scs,
    gatherDistinctSlotCombinations fmts = Ok scs ∧
    Sorted String.le scs ∧ NoDup scs ∧
    ∀ sc, sc ∈ scs ↔
      ∃ f, f ∈ fmts ∧ Args f ≠ [] ∧ slotCombinationForFmt f = Ok sc.
Proof.
  intros Hknown. split.
  - intros f Hf _.
    destruct (slotCombinationForFmt_known f (Hknown f Hf)) as [sc Hsc].
    exists sc, (sort_Ints (fmtSlotOffsets f)). split_and!; [done| | |].
    + apply sort_Ints_perm.
    + apply sort_Ints_sorted.
    + apply slotCombinationForFmt_Ok in Hsc.
      eapply Forall2_impl; [exact Hsc|]. intros z c. by rewrite slotRune_Ok.
  - destruct (gatherDistinctSlotCombinations fmts) as [scs|msg] eqn:E.
    + exists scs. split; [done|].
      by apply gatherDistinctSlotCombinations_Ok.
    + apply gatherDistinctSlotCombinations_Panic in E
        as [(f & z & Hf & Hz & Hbad) _].
      specialize (Hknown f Hf). rewrite Forall_forall in Hknown.
      by apply Hknown in Hz.
Qed.

(** C6 at four formats of LoongArch, one of them EMPTY: a single
    combination, DJK. *)
Lemma C6_slot_combination_codes_witness :
  (∀ f, f ∈ [Example.JSd5k16; Example.EMPTY; Example.DJK; Example.DJSk12] →
        Forall (λ z, z ∈ knownOffsets) (fmtSlotOffsets f)) ∧
  gatherDistinctSlotCombinations (ord:=Example.mapOrder)
    [Example.JSd5k16; Example.EMPTY; Example.DJK; Example.DJSk12]
  = Ok ["DJK"].
Proof.
  assert (∀ f, f ∈ [Example.JSd5k16; Example.EMPTY; Example.DJK;
                    Example.DJSk12] →
               Forall (λ z, z ∈ knownOffsets) (fmtSlotOffsets f)) as Hk.
  { intros f Hf.
    repeat (apply elem_of_cons in Hf as [->|Hf]);
      [..|by apply elem_of_nil in Hf];
      apply (bool_decide_unpack _); by vm_compute. }
  split; [exact Hk|].
  destruct (C6_slot_combination_codes (ord:=Example.mapOrder) _ Hk)
    as (_ & scs & Hscs & _).
  rewrite Hscs. vm_compute in Hscs. symmetry. exact Hscs.
Defined.

(** C8.  Generation is deterministic: whatever order Go visits its maps
    in, each of the three generators produces the same bytes (or the same
    panic) for the same records, because the formats are sorted by
    canonical signature and the slot combinations by their code before
    anything is written, and the records by opcode word. *)
Theorem C8_deterministic_output {cmn : Common} {srt : SortAlg}
    (O1 O2 : MapOrder) (descs : list InsnDescription) :
  GenInsnData.main (ord:=O1) descs = GenInsnData.main (ord:=O2) descs ∧
  GenInstFormats.main (ord:=O1) descs = GenInstFormats.main (ord:=O2) descs ∧
  GenQemuTcgDefs.main (ord:=O1) descs = GenQemuTcgDefs.main (ord:=O2) descs ∧
  Sorted String.le
    (Fmt_CanonicalRepr <$> sort_Slice lessFormat (gatherFormats (ord:=O1) descs)) ∧
  Sorted (λ di dj, (Word di ≤ Word dj)%N) (sort_Slice lessWord descs) ∧
  (∀ scs, gatherDistinctSlotCombinations (ord:=O1)
            (gatherFormats (ord:=O1) descs) = Ok scs →
          Sorted String.le scs ∧ NoDup scs).
Proof.
  split_and!.
  - apply GenInsnData_main_MapOrder.
  - apply GenInstFormats_main_MapOrder.
  - apply GenQemuTcgDefs_main_MapOrder.
  - apply sortFormats_sorted.
  - rewrite <-(list_fmap_id (sort_Slice lessWord descs)).
    apply (Sorted_fmap _ (λ x y, lessWord y x = false));
      [|apply sort_Slice_sorted].
    + unfold lessWord. intros di dj Hlt. by apply N.ltb_ge in Hlt.
    + unfold lessWord. intros x y z. rewrite !N.ltb_ge. lia.
    + unfold lessWord. intros x y. rewrite N.ltb_lt, N.ltb_ge. lia.
  - intros scs Hscs.
    apply gatherDistinctSlotCombinations_Ok in Hscs as (? & ? & _). done.
Qed.

(** C9.  Slot-combination derivation knows the offsets 0, 5, 10, 15 and
    16 (tags D, J, K, A, M) and no other: it panics exactly on a format
    with a slot elsewhere, and a format with a slot at any other offset
    below 32 makes the registry, and with it the whole run of
    [geninsndata] and of the QEMU generator, panic instead of producing
    output. *)
Theorem C9_unknown_offset_aborts {cmn : Common} {ord : MapOrder}
    {srt : SortAlg} :
  knownOffsets = [0; 5; 10; 15; 16] ∧
  (∀ f, is_Panic (slotCombinationForFmt f) ↔
        ∃ a s, a ∈ Args f ∧ s ∈ Slots a ∧
               int_of_uint (Offset s) ∉ knownOffsets) ∧
  (∀ f a s,
     a ∈ Args f → s ∈ Slots a → (Offset s < 32)%N →
     Z.of_N (Offset s) ∉ [0; 5; 10; 15; 16] →
     slotCombinationForFmt f = Panic "should never happen" ∧
     (∀ fmts, f ∈ fmts →
        gatherDistinctSlotCombinations fmts = Panic "should never happen") ∧
     (∀ descs, f ∈ gatherFormats descs →
        GenInsnData.main descs = Panic "should never happen") ∧
     (∀ descs, f ∈ gatherFormats (GenQemuTcgDefs.filterUnusedInsns descs) →
        GenQemuTcgDefs.main descs = Panic "should never happen")).
Proof.
  split; [done|]. split.
  - intros f. split.
    + intros [msg Hp]. apply slotCombinationForFmt_Panic in Hp
        as [(z & Hz & Hbad) _].
      apply elem_of_fmtSlotOffsets in Hz as (a & s & Ha & Hs & ->).
      by exists a, s.
    + intros (a & s & Ha & Hs & Hbad). exists "should never happen".
      apply slotCombinationForFmt_Panic. split; [|done].
      exists (int_of_uint (Offset s)). split; [|done].
      apply elem_of_fmtSlotOffsets. by exists a, s.
  - intros f a s Ha Hs Hlt Hbad.
    assert (∃ z, z ∈ fmtSlotOffsets f ∧ z ∉ knownOffsets) as Hz.
    { exists (Z.of_N (Offset s)). split; [|done].
      apply elem_of_fmtSlotOffsets. exists a, s. split_and!; [done..|].
      rewrite int_of_uint_small; [done|].
      eapply N.lt_trans; [exact Hlt|]. by vm_compute. }
    assert (∀ fmts, f ∈ fmts →
              gatherDistinctSlotCombinations fmts
              = Panic "should never happen") as Hreg.
    { intros fmts Hf. apply gatherDistinctSlotCombinations_Panic.
      split; [|done]. destruct Hz as (z & Hz & Hb). by exists f, z. }
    split_and!.
    + by apply slotCombinationForFmt_Panic.
    + exact Hreg.
    + intros descs Hf. by apply GenInsnData_main_Panic, Hreg.
    + intros descs Hf. by apply GenQemuTcgDefs_main_Panic, Hreg.
Qed.






(** C2, as amended.  The table is written with exactly one line per
    record, in the order of the records, and writing it cannot fail: the
    mnemonics are not compared, so records that share a mnemonic each get
    their line. *)
Theorem C2_table_one_line_per_record {cmn : Common}
    (descs : list InsnDescription) :
  (∀ ectx,
     GenInsnData.buf (GenInsnData.emitInsnEncodings ectx descs)
     = GenInsnData.buf ectx +:+ tableHeader +:+
       concat_strings (GenInsnData.encodingLine <$> descs) +:+ "}" +:+ nl) ∧
  (∀ ectx,
     GenInstFormats.buf (GenInstFormats.emitInsnEncodings ectx descs)
     = GenInstFormats.buf ectx +:+ tableHeader +:+
       concat_strings (GenInstFormats.encodingLine <$> descs) +:+ "}" +:+ nl) ∧
  length (GenInsnData.encodingLine <$> descs) = length descs ∧
  length (GenInstFormats.encodingLine <$> descs) = length descs.
Proof.
  split_and!.
  - intros ectx. apply GenInsnData_emitInsnEncodings_buf.
  - intros ectx. apply GenInstFormats_emitInsnEncodings_buf.
  - apply length_fmap.
  - apply length_fmap.
Qed.

(** C2, as stated, fails: two records share the mnemonic [add.w], both
    runs succeed, and the table holds both entries under the same key. *)
Lemma C2_counterexample :
  let descs := [Example.add_w; Example.add_w_again] in
  ¬ NoDup (Mnemonic <$> descs) ∧
  ¬ (∀ descs', ¬ NoDup (Mnemonic <$> descs') →
       is_Panic (GenInsnData.main (cmn:=Example.common)
                   (ord:=Example.mapOrder) (srt:=Example.sortAlg) descs')) ∧
  ¬ (∀ descs', ¬ NoDup (Mnemonic <$> descs') →
       is_Panic (GenInstFormats.main (cmn:=Example.common)
                   (ord:=Example.mapOrder) (srt:=Example.sortAlg) descs')) ∧
  GenInsnData.buf
    (GenInsnData.emitInsnEncodings (cmn:=Example.common)
       (GenInsnData.mkCtx EmptyString) descs)
  = tableHeader +:+
    tab +:+ "AADDW & obj.AMask: {bits: 0x00100000, fmt: insnFormatDJK}," +:+ nl
    +:+
    tab +:+ "AADDW & obj.AMask: {bits: 0x00100001, fmt: insnFormatDJK}," +:+ nl
    +:+ "}" +:+ nl.
Proof.
  intros descs.
  assert (¬ NoDup (Mnemonic <$> descs)) as Hdup.
  { intros Hnd. apply NoDup_cons in Hnd as [Hn _]. apply Hn. by left. }
  split_and!.
  - exact Hdup.
  - intros Hclaim. destruct (Hclaim descs Hdup) as [msg Hmsg].
    vm_compute in Hmsg. discriminate Hmsg.
  - intros Hclaim. destruct (Hclaim descs Hdup) as [msg Hmsg].
    vm_compute in Hmsg. discriminate Hmsg.
  - by vm_compute.
Qed.

(** C3, as amended.  For an argument of total width 21 made of a 5-bit
    high slot, listed first, and a 16-bit low slot, the generated encoders
    pass on [(v >> 16) & 0x1f] for the high slot and [v & 0xffff] for the
    low slot; putting them back as [(high << 16) | low] gives
    [v & 0x1FFFFF] for every [v]; for [v = 0x155555] the high fragment is
    0x15 and the low fragment is 0x5555. *)
Theorem C3_multi_slot_fragments (k : ArgKind) (oh ol : N) (v : Z) :
  oh ≠ ol →
  let a := mkArg k [mkSlot oh 5; mkSlot ol 16] in
  TotalWidth a = 21%N ∧
  ∃ high low,
    qemuFragment a oh v = Some high ∧ qemuFragment a ol v = Some low ∧
    goFragment a oh v = Some high ∧ goFragment a ol v = Some low ∧
    high = Z.land (Z.shiftr v 16) 0x1f ∧ low = Z.land v 0xffff ∧
    Z.lor (Z.shiftl high 16) low = Z.land v 0x1FFFFF ∧
    (v = 0x155555 → high = 0x15 ∧ low = 0x5555).
Proof.
  intros Hne a. split; [done|].
  exists (Z.land (Z.shiftr v 16) 0x1f), (Z.land v 0xffff).
  destruct (qemuFragment_5_16 k oh ol v Hne) as [Hqh Hql].
  destruct (goFragment_5_16 k oh ol v Hne) as [Hgh Hgl].
  split_and!; [done..| |].
  - apply recombine_5_16.
  - by intros ->.
Qed.

(** C3 at the branch offset Sd5k16 and the value 0x155555. *)
Lemma C3_multi_slot_fragments_witness :
  (0%N ≠ 10%N) ∧
  qemuFragment Example.Sd5k16 0 0x155555 = Some 0x15 ∧
  qemuFragment Example.Sd5k16 10 0x155555
    = Some 0x5555 ∧
  goFragment Example.Sd5k16 0 0x155555 = Some 0x15 ∧
  goFragment Example.Sd5k16 10 0x155555 = Some 0x5555 ∧
  Z.lor (Z.shiftl 0x15 16) 0x5555 = Z.land 0x155555 0x1FFFFF.
Proof.
  assert (0%N ≠ 10%N) as Hne by done.
  split; [exact Hne|].
  destruct (C3_multi_slot_fragments ArgKindSignedImm 0 10 0x155555 Hne)
    as (_ & high & low & Hqh & Hql & Hgh & Hgl & _ & _ & Hrec & Hval).
  destruct (Hval eq_refl) as [-> ->].
  split_and!; [exact Hqh|exact Hql|exact Hgh|exact Hgl|exact Hrec].
Defined.

(** C3, as stated, fails: the high fragment of 0x155555 is 0x15, not
    0x0A, in both generators, and 0x0A would not recombine to
    [0x155555 & 0x1FFFFF]. *)
Lemma C3_counterexample :
  qemuFragment Example.Sd5k16 0 0x155555 ≠ Some 0x0A ∧
  goFragment Example.Sd5k16 0 0x155555 ≠ Some 0x0A ∧
  Z.lor (Z.shiftl 0x0A 16) 0x5555 ≠ Z.land 0x155555 0x1FFFFF.
Proof. split_and!; by vm_compute. Qed.

(** C1, at the failing input.  For [addi.w] (format DJSk12, base word
    0x02800000) with d = 4, j = 5 and the in-range immediate −1, the
    encoder of [geninsndata] and that of [geninstformats] pass the
    immediate on unmasked and return 0xFFFFFCA4, whose bits 22 to 31 lie
    outside every slot and overwrite the opcode; the QEMU generator masks
    the immediate to its 12 bits and returns 0x02BFFCA4.  In general
    [geninsndata] passes a single-slot signed immediate on as it is, where
    the QEMU generator passes on its low W bits. *)
Theorem C1_signed_imm_unmasked_in_go_encoders :
  let fields (x : string) : Z :=
    if decide (x = "enc.rd") then 4
    else if decide (x = "enc.rj") then 5
    else if decide (x = "enc.imm1") then -1
    else 0 in
  let params (x : string) : Z :=
    if decide (x = "d") then 4
    else if decide (x = "j") then 5
    else if decide (x = "sk12") then wrap_uint32 (-1)
    else 0 in
  GenInsnData.evalEncode (cmn:=Example.common) (λ _ r, r) fields 0x02800000
    Example.DJSk12
  = Ok 0xFFFFFCA4 ∧
  GenInstFormats.evalEncoder params 0x02800000
    (GenInstFormats.encoderStmts (cmn:=Example.common) Example.DJSk12)
  = 0xFFFFFCA4 ∧
  GenQemuTcgDefs.evalTCGEmitter (cmn:=Example.common) Example.DJSk12
    0x02800000 [4; 5; -1]
  = Ok (Some 0x02BFFCA4) ∧
  Z.land 0xFFFFFCA4 (Z.lnot 0x003FFFFF) ≠ 0x02800000 ∧
  Z.land 0x02BFFCA4 (Z.lnot 0x003FFFFF) = 0x02800000 ∧
  (∀ s v, goFragment (mkArg ArgKindSignedImm [s]) (Offset s) v = Some v) ∧
  (∀ s v, (Width s < 63)%N →
          qemuFragment (mkArg ArgKindSignedImm [s]) (Offset s) v
          = Some (Z.land v (2 ^ Z.of_N (Width s) - 1))).
Proof.
  intros fields params. split_and!.
  - by vm_compute.
  - by vm_compute.
  - by vm_compute.
  - by vm_compute.
  - by vm_compute.
  - intros s v. apply goFragment_single.
  - intros s v. apply qemuFragment_single_signed.
Qed.

(** C9 at a format with a 2-bit slot at offset 3. *)
Lemma C9_unknown_offset_aborts_witness :
  let odd := mkFormat [mkArg ArgKindUnsignedImm [mkSlot 3 2]] in
  let d := mkInsn 0x7000 "odd" odd {["qemu"]} in
  slotCombinationForFmt odd = Panic "should never happen" ∧
  GenInsnData.main (cmn:=Example.common) (ord:=Example.mapOrder)
    (srt:=Example.sortAlg) [Example.add_w; d]
  = Panic "should never happen" ∧
  GenQemuTcgDefs.main (cmn:=Example.common) (ord:=Example.mapOrder)
    (srt:=Example.sortAlg) [Example.add_w; d]
  = Panic "should never happen".
Proof.
  intros odd d.
  destruct (C9_unknown_offset_aborts (cmn:=Example.common)
              (ord:=Example.mapOrder) (srt:=Example.sortAlg))
    as (_ & _ & Habort).
  destruct (Habort odd (mkArg ArgKindUnsignedImm [mkSlot 3 2]) (mkSlot 3 2))
    as (Hsc & _ & Hgo & Hqemu).
  - by left.
  - by left.
  - by vm_compute.
  - apply (bool_decide_unpack _). by vm_compute.
  - split_and!.
    + exact Hsc.
    + apply Hgo. apply (bool_decide_unpack _). by vm_compute.
    + apply Hqemu. apply (bool_decide_unpack _). by vm_compute.
Defined.


(** * Further properties of the generators *)

(** X1.  The slot encoders follow the combination codes.  For every code
    in the registry that [gatherDistinctSlotCombinations] returns, there
    is a format whose slots it stands for; read back rune by rune with
    [slotOffsetFromRune], the lower-cased code gives the slot offsets of
    that format in ascending order, one parameter of the slot encoder
    per slot; so [emitSlotEncoders] never reaches the panic of
    [slotOffsetFromRune], in [geninsndata] and in the QEMU generator. *)
Theorem X1_slot_encoders_follow_codes {ord : MapOrder}
    (fmts : list InsnFormat) (scs : list string) :
  gatherDistinctSlotCombinations fmts = Ok scs →
  (∀ sc, sc ∈ scs →
     ∃ f, f ∈ fmts ∧ slotCombinationForFmt f = Ok sc ∧
       let terms := zip (runes_of_string (ToLower sc))
                        (sort_Ints (fmtSlotOffsets f)) in
       length (runes_of_string sc) = length (fmtSlotOffsets f) ∧
       GenInsnData.slotEncoderTerms sc = Ok terms ∧
       GenQemuTcgDefs.slotEncoderTerms sc = Ok terms) ∧
  (∀ ectx, is_Ok (GenInsnData.emitSlotEncoders ectx scs)) ∧
  (∀ ectx, is_Ok (GenQemuTcgDefs.emitSlotEncoders ectx scs)).
Proof.
  intros Hscs. split; [|by apply (emitSlotEncoders_registry_Ok fmts)].
  intros sc Hsc.
  apply (gatherDistinctSlotCombinations_Ok _ _ Hscs) in Hsc
    as (f & Hf & _ & Hfsc).
  exists f. split; [done|]. split; [done|]. cbv zeta.
  destruct (slotCombination_terms f sc Hfsc) as (Hgo & Hq & _ & _).
  rewrite runes_of_string_ToLower. split; [|done].
  apply slotCombinationForFmt_Ok in Hfsc.
  apply Forall2_length in Hfsc. rewrite <-Hfsc.
  by rewrite (Permutation_length (sort_Ints_perm _)).
Qed.

(** X1 at four formats of LoongArch: the registry is DJK alone, and its
    slot encoder is written. *)
Lemma X1_slot_encoders_follow_codes_witness :
  gatherDistinctSlotCombinations (ord:=Example.mapOrder)
    [Example.JSd5k16; Example.EMPTY; Example.DJK; Example.DJSk12]
  = Ok ["DJK"] ∧
  ∀ ectx, is_Ok (GenQemuTcgDefs.emitSlotEncoders ectx ["DJK"]).
Proof.
  assert (gatherDistinctSlotCombinations (ord:=Example.mapOrder)
            [Example.JSd5k16; Example.EMPTY; Example.DJK; Example.DJSk12]
          = Ok ["DJK"]) as H by (by vm_compute).
  split; [exact H|].
  exact (proj2 (proj2 (X1_slot_encoders_follow_codes
                         (ord:=Example.mapOrder) _ _ H))).
Defined.

(** X2.  The lookups of slot expressions cannot miss.  Offsets being Go
    [uint]s, the QEMU generator works out the encoder of a format exactly
    when every slot of the format sits at an offset that has a tag, which
    is when [slotCombinationForFmt] returns; [geninsndata] works out the
    case of its big encoder exactly when, besides, every register names a
    field.  So the panics after the two map lookups, in
    [emitFmtEncoderFn] and in [emitBigEncoderFn], are never reached. *)
Theorem X2_encoder_lookups_never_miss {cmn : Common} (f : InsnFormat) :
  uintOffsets f →
  (is_Ok (slotCombinationForFmt f) ↔ knownSlots f) ∧
  (is_Ok (GenQemuTcgDefs.fmtEncoder f) ↔ knownSlots f) ∧
  (is_Ok (GenInsnData.bigEncoderCase f) ↔
   Forall regFieldKnown (Args f) ∧ knownSlots f).
Proof.
  intros Hu. split_and!.
  - by apply slotCombinationForFmt_is_Ok.
  - by apply fmtEncoder_is_Ok.
  - by apply bigEncoderCase_is_Ok.
Qed.

(** X2 at the format of [beqz], a register and an immediate split over
    two slots. *)
Lemma X2_encoder_lookups_never_miss_witness :
  uintOffsets Example.JSd5k16 ∧
  is_Ok (GenQemuTcgDefs.fmtEncoder (cmn:=Example.common) Example.JSd5k16) ∧
  is_Ok (GenInsnData.bigEncoderCase (cmn:=Example.common) Example.JSd5k16).
Proof.
  assert (uintOffsets Example.JSd5k16) as Hu
    by (apply (bool_decide_unpack _); by vm_compute).
  assert (knownSlots Example.JSd5k16) as Hk
    by (apply (bool_decide_unpack _); by vm_compute).
  assert (Forall regFieldKnown (Args Example.JSd5k16)) as Hr
    by (apply (bool_decide_unpack _); by vm_compute).
  destruct (X2_encoder_lookups_never_miss (cmn:=Example.common)
              Example.JSd5k16 Hu) as (_ & Hq & Hgo).
  split; [exact Hu|]. split; [by apply Hq|by apply Hgo].
Defined.

(** X3.  When a run of the QEMU generator gets as far as clang-format.
    Take the formats of the records marked [qemu], their offsets being Go
    [uint]s.  If every slot of every such format sits at an offset that
    has a tag, the run panics nowhere and its result is what
    [clang-format] makes of the text written; if one format has a slot
    somewhere else, the run panics with "should never happen". *)
Theorem X3_qemu_run_reaches_clang_format {cmn : Common} {ord : MapOrder}
    {srt : SortAlg} (descs : list InsnDescription) :
  Forall uintOffsets (gatherFormats (GenQemuTcgDefs.filterUnusedInsns descs)) →
  (Forall knownSlots (gatherFormats (GenQemuTcgDefs.filterUnusedInsns descs)) →
   ∃ text, GenQemuTcgDefs.main descs = clang_format text) ∧
  (∀ f, f ∈ gatherFormats (GenQemuTcgDefs.filterUnusedInsns descs) →
        ¬ knownSlots f →
        GenQemuTcgDefs.main descs = Panic "should never happen").
Proof. apply GenQemuTcgDefs_main_reaches_clang_format. Qed.

(** X3 at three records: the run returns text. *)
Lemma X3_qemu_run_reaches_clang_format_witness :
  Forall uintOffsets
    (gatherFormats (cmn:=Example.common) (ord:=Example.mapOrder)
       (GenQemuTcgDefs.filterUnusedInsns
          [Example.add_w; Example.sub_w; Example.beqz])) ∧
  ∃ text,
    GenQemuTcgDefs.main (cmn:=Example.common) (ord:=Example.mapOrder)
      (srt:=Example.sortAlg) [Example.add_w; Example.sub_w; Example.beqz]
    = Ok text.
Proof.
  assert (Forall uintOffsets
            (gatherFormats (cmn:=Example.common) (ord:=Example.mapOrder)
               (GenQemuTcgDefs.filterUnusedInsns
                  [Example.add_w; Example.sub_w; Example.beqz]))) as Hu
    by (apply (bool_decide_unpack _); by vm_compute).
  assert (Forall knownSlots
            (gatherFormats (cmn:=Example.common) (ord:=Example.mapOrder)
               (GenQemuTcgDefs.filterUnusedInsns
                  [Example.add_w; Example.sub_w; Example.beqz]))) as Hk
    by (apply (bool_decide_unpack _); by vm_compute).
  split; [exact Hu|].
  exact (proj1 (X3_qemu_run_reaches_clang_format
                  (cmn:=Example.common) (ord:=Example.mapOrder)
                  (srt:=Example.sortAlg) _ Hu) Hk).
Defined.

(** X4.  When a run of [geninsndata] gets as far as gofmt.  The offsets
    of the formats of the catalog being Go [uint]s: if every format has
    its slots at offsets that have a tag and its registers at offsets
    that name a field ([rd], [rj], [rk], [ra]), the run panics nowhere
    and hands the text written to [format.Source]; if one format fails
    either condition, the run panics. *)
Theorem X4_geninsndata_run_reaches_gofmt {cmn : Common} {ord : MapOrder}
    {srt : SortAlg} (descs : list InsnDescription) :
  Forall uintOffsets (gatherFormats descs) →
  (Forall (λ f, knownSlots f ∧ Forall regFieldKnown (Args f))
          (gatherFormats descs) →
   ∃ ectx, GenInsnData.main descs = format_Source (GenInsnData.buf ectx)) ∧
  (∀ f, f ∈ gatherFormats descs →
        ¬ (knownSlots f ∧ Forall regFieldKnown (Args f)) →
        is_Panic (GenInsnData.main descs)).
Proof. apply GenInsnData_main_reaches_gofmt. Qed.

(** X4 at three records: the run returns text. *)
Lemma X4_geninsndata_run_reaches_gofmt_witness :
  Forall uintOffsets
    (gatherFormats (cmn:=Example.common) (ord:=Example.mapOrder)
       [Example.add_w; Example.sub_w; Example.beqz]) ∧
  ∃ ectx,
    GenInsnData.main (cmn:=Example.common) (ord:=Example.mapOrder)
      (srt:=Example.sortAlg) [Example.add_w; Example.sub_w; Example.beqz]
    = Ok (GenInsnData.buf ectx).
Proof.
  assert (Forall uintOffsets
            (gatherFormats (cmn:=Example.common) (ord:=Example.mapOrder)
               [Example.add_w; Example.sub_w; Example.beqz])) as Hu
    by (apply (bool_decide_unpack _); by vm_compute).
  assert (Forall (λ f, knownSlots f ∧ Forall regFieldKnown (Args f))
            (gatherFormats (cmn:=Example.common) (ord:=Example.mapOrder)
               [Example.add_w; Example.sub_w; Example.beqz])) as Hk
    by (apply (bool_decide_unpack _); by vm_compute).
  split; [exact Hu|].
  exact (proj1 (X4_geninsndata_run_reaches_gofmt
                  (cmn:=Example.common) (ord:=Example.mapOrder)
                  (srt:=Example.sortAlg) _ Hu) Hk).
Defined.

(** X5.  The fields that [geninsndata] reads the operands from.
    [fieldNamesForArgs] returns exactly when every register among the
    arguments has a first slot at offset 0, 5, 10 or 15 (a register at
    offset 16 has no field, and panics).  When it returns, there is one
    name per argument: the i-th immediate among the arguments, counted
    from one, is read from [imm<i>], and a register from [rd], [rj], [rk]
    or [ra] by the offset of its first slot. *)
Theorem X5_field_names (args : list Arg) :
  (is_Ok (GenInsnData.fieldNamesForArgs args) ↔ Forall regFieldKnown args) ∧
  ∀ names,
    GenInsnData.fieldNamesForArgs args = Ok names →
    length names = length args ∧
    ∀ k a, args !! k = Some a →
      ∃ n, names !! k = Some n ∧
        if IsImm (Kind a)
        then n = "imm" +:+ fmt_d (Z.of_nat (immCount (take (S k) args)))
        else ∃ s rest, Slots a = s :: rest ∧
                       (Z.of_N (Offset s), n) ∈ regFields.
Proof.
  split; [apply fieldNamesFrom_is_Ok|].
  intros names Hn. split.
  - by apply (fieldNamesFrom_length 0).
  - intros k a Hk.
    destruct (fieldNamesFrom_lookup 0 args names k a Hn Hk)
      as (n & Hnk & Hspec).
    exists n. split; [done|]. destruct (IsImm (Kind a)); [|done].
    by rewrite Z.add_0_l in Hspec.
Qed.

(** X5 at an immediate, a register and a second immediate. *)
Lemma X5_field_names_witness :
  GenInsnData.fieldNamesForArgs [Example.Sk12; Example.J; Example.Uk12]
  = Ok ["imm1"; "rj"; "imm2"] ∧
  ∃ n, ["imm1"; "rj"; "imm2"] !! 2%nat = Some n ∧
       n = "imm" +:+ fmt_d (Z.of_nat (immCount (take 3
                 [Example.Sk12; Example.J; Example.Uk12]))).
Proof.
  assert (GenInsnData.fieldNamesForArgs
            [Example.Sk12; Example.J; Example.Uk12]
          = Ok ["imm1"; "rj"; "imm2"]) as H by (by vm_compute).
  split; [exact H|].
  exact (proj2 (proj2 (X5_field_names _) _ H) 2%nat Example.Uk12 eq_refl).
Defined.









(** X10.  No two slot encoders share a name.  The names that
    [slotEncoderFnNameForSc] gives to the codes of a registry are
    pairwise distinct, in [geninsndata] (where any two codes get
    different names) and in the QEMU generator (where the code is
    lower-cased first, which tells the codes of a registry apart since
    they are made of the upper-case tags). *)
Theorem X10_slot_encoder_names_distinct {ord : MapOrder}
    (fmts : list InsnFormat) (scs : list string) :
  gatherDistinctSlotCombinations fmts = Ok scs →
  (∀ sc1 sc2, GenInsnData.slotEncoderFnNameForSc sc1
              = GenInsnData.slotEncoderFnNameForSc sc2 → sc1 = sc2) ∧
  NoDup (GenInsnData.slotEncoderFnNameForSc <$> scs) ∧
  NoDup (GenQemuTcgDefs.slotEncoderFnNameForSc <$> scs).
Proof.
  intros Hscs.
  destruct (gatherDistinctSlotCombinations_Ok _ _ Hscs) as (_ & Hnd & Hin).
  split; [apply GenInsnData_slotEncoderFnNameForSc_inj|]. split.
  - apply NoDup_fmap_2_strong; [|done].
    intros sc1 sc2 _ _. apply GenInsnData_slotEncoderFnNameForSc_inj.
  - apply NoDup_fmap_2_strong; [|done].
    intros sc1 sc2 H1 H2 Heq.
    apply Hin in H1 as (f1 & _ & _ & Hf1).
    apply Hin in H2 as (f2 & _ & _ & Hf2).
    apply ToLower_inj_tags.
    + by eapply slotCombinationForFmt_tags.
    + by eapply slotCombinationForFmt_tags.
    + by apply GenQemuTcgDefs_slotEncoderFnNameForSc_inj.
Qed.

(** X10 at formats with the combinations DJ and DJK. *)
Lemma X10_slot_encoder_names_distinct_witness :
  gatherDistinctSlotCombinations (ord:=Example.mapOrder)
    [Example.JSd5k16; Example.DJK; mkFormat [Example.D; Example.J]]
  = Ok ["DJ"; "DJK"] ∧
  NoDup (GenQemuTcgDefs.slotEncoderFnNameForSc <$> ["DJ"; "DJK"]).
Proof.
  assert (gatherDistinctSlotCombinations (ord:=Example.mapOrder)
            [Example.JSd5k16; Example.DJK; mkFormat [Example.D; Example.J]]
          = Ok ["DJ"; "DJK"]) as H by (by vm_compute).
  split; [exact H|].
  exact (proj2 (proj2 (X10_slot_encoder_names_distinct
                         (ord:=Example.mapOrder) _ _ H))).
Defined.





(** X13.  The names made from a mnemonic are identifiers.  For a
    mnemonic made of lower-case letters, digits, dots and underscores,
    [goOpcodeNameForInsn] (the same in both generators for the Go
    assembler) returns [A] followed by upper-case letters and digits
    only, and [insnMnemonicToEnumVariantName] returns [OPC_] followed by
    as many characters as the mnemonic has, each an upper-case letter, a
    digit or an underscore. *)
Theorem X13_names_are_identifiers (m : string) :
  Forall (λ c, mnemonicChar c = true) (runes_of_string m) →
  (∃ rest,
     GenInsnData.goOpcodeNameForInsn m = String "A" rest ∧
     GenInstFormats.goOpcodeNameForInsn m = String "A" rest ∧
     Forall (λ c, ascii_is_upper c || ascii_is_digit c = true)
            (runes_of_string rest)) ∧
  (∃ rest,
     GenQemuTcgDefs.insnMnemonicToEnumVariantName m = "OPC_" +:+ rest ∧
     String.length rest = String.length m ∧
     Forall (λ c, ascii_is_upper c || ascii_is_digit c = true ∨
                  c = "_"%char)
            (runes_of_string rest)).
Proof.
  intros Hm. rewrite Forall_forall in Hm. split.
  - exists (ToUpper (ReplaceAll1 (ReplaceAll1 m "." EmptyString) "_"
                       EmptyString)).
    split; [reflexivity|]. split; [reflexivity|].
    rewrite runes_ToUpper, !runes_ReplaceAll1_remove.
    apply Forall_forall. intros c' Hc'.
    apply list_elem_of_fmap in Hc' as (c & -> & Hc).
    apply list_elem_of_filter in Hc as [Hu Hc].
    apply list_elem_of_filter in Hc as [Hd Hc].
    destruct (ToUpper_mnemonicChar c (Hm c Hc)) as [[?|[?|?]] _]; done.
  - exists (ToUpper (ReplaceAll1 m "." "_")).
    split; [reflexivity|]. split.
    + rewrite !string_length_runes, runes_ToUpper,
        runes_ReplaceAll1_char. by rewrite !length_fmap.
    + rewrite runes_ToUpper, runes_ReplaceAll1_char.
      apply Forall_forall. intros c' Hc'.
      apply list_elem_of_fmap in Hc' as (c0 & -> & Hc0).
      apply list_elem_of_fmap in Hc0 as (c & -> & Hc).
      destruct (Ascii.eqb_spec c ".") as [->|Hne]; [by right|].
      destruct (ToUpper_mnemonicChar c (Hm c Hc))
        as ([?|[?| ->]] & _ & Hus); [by left|done|].
      right. by apply Hus.
Qed.

(** X13 at [amadd_db.w]. *)
Lemma X13_names_are_identifiers_witness :
  Forall (λ c, mnemonicChar c = true) (runes_of_string "amadd_db.w") ∧
  GenInsnData.goOpcodeNameForInsn "amadd_db.w" = "AAMADDDBW" ∧
  GenQemuTcgDefs.insnMnemonicToEnumVariantName "amadd_db.w"
  = "OPC_AMADD_DB_W" ∧
  ∃ rest,
    GenQemuTcgDefs.insnMnemonicToEnumVariantName "amadd_db.w"
    = "OPC_" +:+ rest ∧
    String.length rest = String.length "amadd_db.w" ∧
    Forall (λ c, ascii_is_upper c || ascii_is_digit c = true ∨
                 c = "_"%char)
           (runes_of_string rest).
Proof.
  assert (Forall (λ c, mnemonicChar c = true)
                 (runes_of_string "amadd_db.w")) as Hm
    by (apply (bool_decide_unpack _); by vm_compute).
  split; [done|]. split; [by vm_compute|]. split; [by vm_compute|].
  exact (proj2 (X13_names_are_identifiers "amadd_db.w" Hm)).
Defined.







(** * The generators at work on a few records *)

(** Reversing the order in which maps are visited reverses the catalog
    as gathered; what is written stays the same. *)
Example two_map_orders :
  let descs := [Example.beqz; Example.addi_w; Example.add_w; Example.dbar0] in
  gatherFormats (cmn:=Example.common) (ord:=Example.mapOrder) descs
  ≠ gatherFormats (cmn:=Example.common) (ord:=Example.mapOrderRev) descs ∧
  GenInsnData.main (cmn:=Example.common) (ord:=Example.mapOrder)
    (srt:=Example.sortAlg) descs
  = GenInsnData.main (cmn:=Example.common) (ord:=Example.mapOrderRev)
      (srt:=Example.sortAlg) descs.
Proof. split; by vm_compute. Qed.

(** The scenario of the specification: base word 0x10000000, a 5-bit
    slot at offset 0 holding 3 and a 5-bit slot at offset 5 holding 7. *)
Example encode_d3_j7 :
  GenQemuTcgDefs.evalTCGEmitter (cmn:=Example.common)
    (mkFormat [Example.D; Example.J]) 0x10000000 [3; 7]
  = Ok (Some 0x100000E3) ∧
  GenInsnData.evalEncode (cmn:=Example.common) (λ _ r, r)
    (λ x, if decide (x = "enc.rd") then 3 else 7) 0x10000000
    (mkFormat [Example.D; Example.J])
  = Ok 0x100000E3.
Proof. split; by vm_compute. Qed.

(** A format without arguments encodes to its base word. *)
Example encode_empty :
  GenQemuTcgDefs.evalTCGEmitter (cmn:=Example.common) Example.EMPTY
    0x38720000 []
  = Ok (Some 0x38720000) ∧
  GenInsnData.evalEncode (cmn:=Example.common) (λ _ r, r) (λ _, 0)
    0x38720000 Example.EMPTY
  = Ok 0x38720000.
Proof. split; by vm_compute. Qed.

(** A branch offset split over two slots, negative and in range; one
    that is out of range trips the assertion. *)
Example encode_beqz_minus_4 :
  GenQemuTcgDefs.evalTCGEmitter (cmn:=Example.common) Example.JSd5k16
    0x40000000 [5; -4]
  = Ok (Some 0x43FFF0BF) ∧
  GenQemuTcgDefs.evalTCGEmitter (cmn:=Example.common) Example.JSd5k16
    0x40000000 [5; 0x100000]
  = Ok None.
Proof. split; by vm_compute. Qed.

(** The text of one QEMU encoder. *)
Example qemu_text_djsk12 :
  GenQemuTcgDefs.Buf <$>
    GenQemuTcgDefs.emitFmtEncoderFn (cmn:=Example.common)
      (GenQemuTcgDefs.mkCtx true EmptyString) Example.DJSk12
  = Ok (nl +:+ "static int32_t __attribute__((unused))" +:+ nl +:+
        "encode_djsk12_insn(LoongArchInsn opc, TCGReg d, TCGReg j, "
        +:+ "int32_t sk12)" +:+ nl +:+
        "{" +:+ nl +:+
        "    tcg_debug_assert(d >= 0 && d <= 0x1f);" +:+ nl +:+
        "    tcg_debug_assert(j >= 0 && j <= 0x1f);" +:+ nl +:+
        "    tcg_debug_assert(sk12 >= -0x800 && sk12 <= 0x7ff);" +:+ nl +:+
        "    return encode_djk_slots(opc, d, j, sk12 & 0xfff);" +:+ nl +:+
        "}" +:+ nl).
Proof. by vm_compute. Qed.

(** The text of the same encoder for the Go assembler: no mask. *)
Example go_text_djsk12 :
  GenInsnData.buf <$>
    GenInsnData.emitBigCase (cmn:=Example.common)
      (GenInsnData.mkCtx EmptyString) Example.DJSk12
  = Ok (tab +:+ "case insnFormatDJSk12:" +:+ nl +:+
        "d :=regInt(enc.rd)" +:+ nl +:+
        "j :=regInt(enc.rj)" +:+ nl +:+
        "sk12 :=uint32(enc.imm1)" +:+ nl +:+
        "return encodeDJKSlots(enc.bits, d, j, sk12), nil" +:+ nl).
Proof. by vm_compute. Qed.
